(** * FableStack front end: stream handling, timeline and tool results

    A shallow embedding of the parts of the FableStack web client that
    decide how a streamed turn ends up in the timeline:

    - [GameView.vue]: [getEventComponent], [flushNarrativeBuffer],
      [appendToTimeline], [handleStreamEvent], the end of [executeTurn],
      [confirmRestore];
    - [services/api.ts]: the [TimelineEvent] type and [restoreHistory];
    - [utils/toolUtils.ts]: [isSuccess].

    JavaScript strings are sequences of UTF-16 code units; they are modelled
    as lists of code units so that the regular expression of the source is
    run on what the engine really sees. *)

From Stdlib Require Import String Ascii.
From Stdlib Require Import List ZArith NArith Bool Lia.
From Stdlib Require Import Floats.SpecFloat.
Import ListNotations.

Set Implicit Arguments.

(** ** JavaScript strings *)

Module JsString.

Definition codeunit := N.
Definition jsstring := list codeunit.

Definition of_ascii (a : ascii) : codeunit := N_of_ascii a.

(** A literal written in the source, as code units. *)
Fixpoint str (s : string) : jsstring :=
  match s with
  | EmptyString => []
  | String a s' => of_ascii a :: str s'
  end.

(** [!text]: the empty string is the only falsy string. *)
Definition isEmpty (s : jsstring) : bool :=
  match s with [] => true | _ :: _ => false end.

Fixpoint startsWith (pat s : jsstring) : bool :=
  match pat, s with
  | [], _ => true
  | _ :: _, [] => false
  | p :: pat', x :: s' => N.eqb p x && startsWith pat' s'
  end.

(** [s.includes(pat)]. *)
Fixpoint includes (pat s : jsstring) : bool :=
  startsWith pat s
  || match s with
     | [] => false
     | _ :: s' => includes pat s'
     end.

(** [s.lastIndexOf(pat)]: scan every position, remember the last one at
    which [pat] occurs, [-1] when there is none. *)
Fixpoint lastIndexOf_from (pat s : jsstring) (i found : Z) : Z :=
  match s with
  | [] => if startsWith pat [] then i else found
  | _ :: s' =>
      lastIndexOf_from pat s' (i + 1) (if startsWith pat s then i else found)
  end.

Definition lastIndexOf (pat s : jsstring) : Z :=
  lastIndexOf_from pat s 0 (-1).

(** [s.substring(start, end)]: both indices are clamped to [0, length]
    and swapped when out of order; a missing [end] is the length. *)
Definition clampIndex (s : jsstring) (i : Z) : nat :=
  Z.to_nat (Z.min (Z.max i 0) (Z.of_nat (length s))).

Definition substring (s : jsstring) (start : Z) (end_ : option Z) : jsstring :=
  let a := clampIndex s start in
  let b := match end_ with
           | Some e => clampIndex s e
           | None => length s
           end in
  let lo := Nat.min a b in
  let hi := Nat.max a b in
  firstn (hi - lo) (skipn lo s).

End JsString.

Import JsString.

(** ** The regular expression of [flushNarrativeBuffer]

    [/<<\s*SPEAKER\s*:\s*(.*?)\s*>>/gi] is a sequence of literal characters
    and of starred one-character classes.  The matcher below is the
    backtracking matcher of ECMAScript restricted to that shape: a greedy
    star tries the longest run first, a lazy star the shortest, and the
    first alternative under which the rest of the pattern matches wins. *)

Module Regex.

(** [\s]: WhiteSpace and LineTerminator code units. *)
Definition isWhiteSpace (c : codeunit) : bool :=
  ((9 <=? c) && (c <=? 13) || (c =? 32) || (c =? 160) || (c =? 5760)
   || (8192 <=? c) && (c <=? 8202) || (c =? 8232) || (c =? 8233)
   || (c =? 8239) || (c =? 8287) || (c =? 12288) || (c =? 65279))%N.

Definition isLineTerminator (c : codeunit) : bool :=
  ((c =? 10) || (c =? 13) || (c =? 8232) || (c =? 8233))%N.

(** [.] without the [s] flag. *)
Definition isDot (c : codeunit) : bool := negb (isLineTerminator c).

(** Canonicalize of the [i] flag without the [u] flag: the upper-case
    mapping, except that a code unit of 128 or more is never mapped below
    128.  Only comparisons with the ASCII characters of the pattern
    matter, so the mapping is written out on ASCII and is the identity
    elsewhere. *)
Definition canonicalize (c : codeunit) : codeunit :=
  if ((97 <=? c) && (c <=? 122))%N then (c - 32)%N else c.

Inductive node :=
| Char (c : codeunit)
| Star (greedy : bool) (cls : codeunit -> bool).

Definition regex := list node.

(** [exec r s] matches [r] at the start of [s] and returns what is left
    of [s] after the match. *)
Fixpoint exec (r : regex) (s : jsstring) {struct r} : option jsstring :=
  match r with
  | [] => Some s
  | Char c :: r' =>
      match s with
      | x :: s' =>
          if N.eqb (canonicalize x) (canonicalize c) then exec r' s' else None
      | [] => None
      end
  | Star true cls :: r' =>
      (fix greedy (s : jsstring) : option jsstring :=
         match s with
         | x :: s' =>
             if cls x then
               match greedy s' with
               | Some rest => Some rest
               | None => exec r' s
               end
             else exec r' s
         | [] => exec r' s
         end) s
  | Star false cls :: r' =>
      (fix lazy (s : jsstring) : option jsstring :=
         match exec r' s with
         | Some rest => Some rest
         | None =>
             match s with
             | x :: s' => if cls x then lazy s' else None
             | [] => None
             end
         end) s
  end.

Definition literal (s : string) : regex := map Char (str s).

(** The pattern, named from its end: [>>], [\s*>>], [(.*?)\s*>>] and
    [\s*(.*?)\s*>>]. *)
Definition closing : regex := literal ">>".
Definition blanksClosing : regex := Star true isWhiteSpace :: closing.
Definition nameClosing : regex := Star false isDot :: blanksClosing.
Definition afterColon : regex := Star true isWhiteSpace :: nameClosing.

Definition tagRegex : regex :=
  literal "<<" ++ [Star true isWhiteSpace] ++ literal "SPEAKER"
  ++ [Star true isWhiteSpace] ++ literal ":" ++ afterColon.

(** [s.replace(r, '')] with the [g] flag: at each position, drop the match
    that starts there and go on after it, or keep the character and move
    on by one.  An empty match keeps the character as well.  The loop
    runs at most once per code unit of [s]. *)
Fixpoint replace_loop (r : regex) (fuel : nat) (s : jsstring) : jsstring :=
  match fuel with
  | O => s
  | S fuel' =>
      match s with
      | [] => []
      | x :: s' =>
          match exec r s with
          | Some rest =>
              if (length rest <? length s)%nat
              then replace_loop r fuel' rest
              else x :: replace_loop r fuel' s'
          | None => x :: replace_loop r fuel' s'
          end
      end
  end.

Definition replaceAll (r : regex) (s : jsstring) : jsstring :=
  replace_loop r (length s) s.

End Regex.

Import Regex.

(** ** JavaScript values read from the wire

    The payloads typed [any] in the source come out of [JSON.parse]:
    [null], booleans, numbers (IEEE 754 doubles), strings, arrays and
    objects; [undefined] is what a missing argument or field reads as.  An
    object is its table of properties, looked up by key. *)

#[local] Set Warnings "-register-all".

Inductive jsval :=
| JUndefined
| JNull
| JBool (b : bool)
| JNum (x : spec_float)
| JStr (s : jsstring)
| JArr (items : list jsval)
| JObj (props : list (string * jsval)).

Module Js.

(** ToBoolean. *)
Definition truthy (v : jsval) : bool :=
  match v with
  | JUndefined | JNull => false
  | JBool b => b
  | JNum (S754_zero _) | JNum S754_nan => false
  | JNum _ => true
  | JStr s => negb (isEmpty s)
  | JArr _ | JObj _ => true
  end.

Inductive jstype := TUndefined | TObject | TBoolean | TNumber | TString.

(** [typeof v]; [typeof null] is ['object']. *)
Definition typeof (v : jsval) : jstype :=
  match v with
  | JUndefined => TUndefined
  | JNull | JArr _ | JObj _ => TObject
  | JBool _ => TBoolean
  | JNum _ => TNumber
  | JStr _ => TString
  end.

Fixpoint lookup (k : string) (props : list (string * jsval)) : option jsval :=
  match props with
  | [] => None
  | (k', v) :: rest => if String.eqb k k' then Some v else lookup k rest
  end.

(** [k in v] for a name [k] that is not an array index nor ['length']:
    arrays have no such property. *)
Definition has_key (k : string) (v : jsval) : bool :=
  match v with
  | JObj props => match lookup k props with Some _ => true | None => false end
  | _ => false
  end.

(** [v.k]. *)
Definition get (k : string) (v : jsval) : jsval :=
  match v with
  | JObj props => match lookup k props with Some x => x | None => JUndefined end
  | _ => JUndefined
  end.

End Js.

(** ** [services/api.ts]: the timeline data model *)

Inductive EventType :=
| USER_INPUT | SYSTEM_LOG | NARRATIVE | CHOICE | SKILL_CHECK
| COMBAT_ATTACK | COMBAT_DAMAGE | COMBAT_INFO | COMBAT_TURN
| ITEM_ADDED | ITEM_REMOVED | ITEM_CRAFTED | CURRENCY_CHANGE.

Definition EventType_eqb (a b : EventType) : bool :=
  match a, b with
  | USER_INPUT, USER_INPUT | SYSTEM_LOG, SYSTEM_LOG | NARRATIVE, NARRATIVE
  | CHOICE, CHOICE | SKILL_CHECK, SKILL_CHECK | COMBAT_ATTACK, COMBAT_ATTACK
  | COMBAT_DAMAGE, COMBAT_DAMAGE | COMBAT_INFO, COMBAT_INFO
  | COMBAT_TURN, COMBAT_TURN | ITEM_ADDED, ITEM_ADDED
  | ITEM_REMOVED, ITEM_REMOVED | ITEM_CRAFTED, ITEM_CRAFTED
  | CURRENCY_CHANGE, CURRENCY_CHANGE => true
  | _, _ => false
  end.

Inductive Difficulty := favorable | normal | unfavorable.

Record ChoiceData := {
  id : jsstring;
  label : jsstring;
  skill_check : option jsstring;
  difficulty : option Difficulty
}.

(** [content: any] carries either text or, for a [CHOICE] event, the array
    of choices. *)
Inductive Content :=
| Text (s : jsstring)
| Choices (cs : list ChoiceData).

Record TimelineEvent := {
  type : EventType;
  timestamp : jsstring;
  content : Content;
  icon : option jsstring;
  metadata : option (list (string * jsval))
}.

(** ToString of a content, as [+=] applies it: an array is its elements
    joined by commas and a plain object is ["[object Object]"]. *)
Fixpoint joinObjects (n : nat) : jsstring :=
  match n with
  | O => []
  | S O => str "[object Object]"
  | S n' => str "[object Object]," ++ joinObjects n'
  end.

Definition contentToString (c : Content) : jsstring :=
  match c with
  | Text s => s
  | Choices cs => joinObjects (length cs)
  end.

(** ** [views/GameView.vue] *)

Module GameView.

Inductive Component :=
| UserInputEvent | SkillCheckEvent | CombatEvent | ItemEvent
| CurrencyEvent | SystemLogEvent | NarrativeEvent.

(** [null] is [None]. *)
Definition getEventComponent (event : TimelineEvent) : option Component :=
  match type event with
  | USER_INPUT => Some UserInputEvent
  | SKILL_CHECK => Some SkillCheckEvent
  | COMBAT_ATTACK
  | COMBAT_DAMAGE => Some CombatEvent
  | ITEM_ADDED
  | ITEM_CRAFTED => Some ItemEvent
  | CURRENCY_CHANGE => Some CurrencyEvent
  | SYSTEM_LOG => Some SystemLogEvent
  | NARRATIVE => Some NarrativeEvent
  | _ => None
  end.

(** The two refs the stream handler works on.  The reading of the clock
    by [new Date().toISOString()] is an argument [now] of each
    operation. *)
Record State := {
  timeline : list TimelineEvent;
  narrativeBuffer : jsstring
}.

Definition isNarrative (e : TimelineEvent) : bool :=
  EventType_eqb (type e) NARRATIVE.

Definition addContent (e : TimelineEvent) (s : jsstring) : TimelineEvent :=
  {| type := type e;
     timestamp := timestamp e;
     content := Text (contentToString (content e) ++ s);
     icon := icon e;
     metadata := metadata e |}.

Definition narrativeEvent (now s : jsstring) : TimelineEvent :=
  {| type := NARRATIVE;
     timestamp := now;
     content := Text s;
     icon := None;
     metadata := None |}.

(** [timeline.value[timeline.value.length - 1]]: the last event, or
    [undefined] on an empty timeline. *)
Fixpoint lastEventOf (tl : list TimelineEvent) : option TimelineEvent :=
  match tl with
  | [] => None
  | [e] => Some e
  | _ :: tl' => lastEventOf tl'
  end.

(** The update of [lastEvent.content] is an update in place of the last
    slot of the timeline. *)
Definition appendToTimeline (now content : jsstring)
    (tl : list TimelineEvent) : list TimelineEvent :=
  match lastEventOf tl with
  | Some lastEvent =>
      if isNarrative lastEvent
      then removelast tl ++ [addContent lastEvent content]
      else tl ++ [narrativeEvent now content]
  | None => tl ++ [narrativeEvent now content]
  end.

Definition flushNarrativeBuffer (now : jsstring) (force : bool)
    (st : State) : State :=
  let text := narrativeBuffer st in
  if isEmpty text then st
  else
    let openTag := lastIndexOf (str "<<") text in
    let closeTag := lastIndexOf (str ">>") text in
    if negb force && (negb (openTag =? -1)%Z && (closeTag <? openTag)%Z)
    then
      (* incomplete tag at the end: flush what precedes it and wait *)
      if (openTag >? 0)%Z
      then
        let safeChunk := substring text 0 (Some openTag) in
        {| timeline := appendToTimeline now safeChunk (timeline st);
           narrativeBuffer := substring text openTag None |}
      else st
    else
      (* the [exec] loop of the source only logs the speaker names *)
      let text := replaceAll tagRegex text in
      {| timeline := if isEmpty text then timeline st
                     else appendToTimeline now text (timeline st);
         narrativeBuffer := [] |}.

(** A frame of the stream after [JSON.parse]. *)
Record StreamData := {
  d_type : string;
  d_content : Content;
  d_icon : option jsstring;
  d_metadata : option (list (string * jsval));
  d_details : option jsstring;
  d_error : option jsstring
}.

(** The list of types of [handleStreamEvent] that are pushed as they
    come; [includes] compares the strings. *)
Definition mechanicalType (t : string) : option EventType :=
  if String.eqb t "SKILL_CHECK" then Some SKILL_CHECK
  else if String.eqb t "COMBAT_ATTACK" then Some COMBAT_ATTACK
  else if String.eqb t "COMBAT_DAMAGE" then Some COMBAT_DAMAGE
  else if String.eqb t "COMBAT_INFO" then Some COMBAT_INFO
  else if String.eqb t "COMBAT_TURN" then Some COMBAT_TURN
  else if String.eqb t "ITEM_ADDED" then Some ITEM_ADDED
  else if String.eqb t "ITEM_REMOVED" then Some ITEM_REMOVED
  else if String.eqb t "ITEM_CRAFTED" then Some ITEM_CRAFTED
  else if String.eqb t "CURRENCY_CHANGE" then Some CURRENCY_CHANGE
  else if String.eqb t "SYSTEM_LOG" then Some SYSTEM_LOG
  else None.

Definition optToString (o : option jsstring) : jsstring :=
  match o with Some s => s | None => str "undefined" end.

(** [data.details || data.error] inside the template string. *)
Definition errorText (data : StreamData) : jsstring :=
  match d_details data with
  | Some (c :: s) => c :: s
  | _ => optToString (d_error data)
  end.

(** The icon of an error line, U+274C. *)
Definition crossMark : jsstring := [10060%N].

Definition push (e : TimelineEvent) (st : State) : State :=
  {| timeline := timeline st ++ [e];
     narrativeBuffer := narrativeBuffer st |}.

Definition handleStreamEvent (now : jsstring) (data : StreamData)
    (st : State) : State :=
  if String.eqb (d_type data) "token" then
    flushNarrativeBuffer now false
      {| timeline := timeline st;
         narrativeBuffer :=
           narrativeBuffer st ++ contentToString (d_content data) |}
  else
    match mechanicalType (d_type data) with
    | Some t =>
        push {| type := t; timestamp := now; content := d_content data;
                icon := d_icon data; metadata := d_metadata data |}
             (flushNarrativeBuffer now true st)
    | None =>
        if String.eqb (d_type data) "system_log" then
          push {| type := SYSTEM_LOG; timestamp := now;
                  content := d_content data; icon := d_icon data;
                  metadata := None |}
               (flushNarrativeBuffer now true st)
        else if String.eqb (d_type data) "choices" then
          push {| type := CHOICE; timestamp := now;
                  content := d_content data; icon := None;
                  metadata := None |}
               (flushNarrativeBuffer now true st)
        else if String.eqb (d_type data) "error" then
          push {| type := SYSTEM_LOG; timestamp := now;
                  content := Text (str "Error: " ++ errorText data);
                  icon := Some crossMark; metadata := None |}
               (flushNarrativeBuffer now true st)
        else st
    end.

(** The end of [executeTurn]: once the reader is done, what is left in
    the buffer is flushed with [force]. *)
Definition endOfStream (now : jsstring) (st : State) : State :=
  if negb (isEmpty (narrativeBuffer st))
  then flushNarrativeBuffer now true st
  else st.

(** The frames of one turn, each with the reading of the clock at its
    arrival, handled in order. *)
Fixpoint handleFrames (frames : list (jsstring * StreamData))
    (st : State) : State :=
  match frames with
  | [] => st
  | (now, data) :: rest => handleFrames rest (handleStreamEvent now data st)
  end.

Definition executeTurn (frames : list (jsstring * StreamData))
    (endTime : jsstring) (st : State) : State :=
  endOfStream endTime (handleFrames frames st).

Definition token (s : string) : StreamData :=
  {| d_type := "token"; d_content := Text (str s); d_icon := None;
     d_metadata := None; d_details := None; d_error := None |}.

End GameView.

Import GameView.

(** ** [services/api.ts]: restoring the history

    A call of the client is the request it posts together with what the
    caller gets once the response has come. *)

Module Api.

Record RestoreHistoryResponse := {
  message : jsstring;
  restored_to_index : Z;
  remaining_messages_count : Z
}.

Record PostRequest := {
  url : jsstring;
  body : list (string * jsval)
}.

(** [async restoreHistory(sessionId, timestamp): Promise<void>]: the
    response of the post is awaited and dropped. *)
Definition restoreHistory (sessionId timestamp : jsstring)
    : PostRequest * (RestoreHistoryResponse -> jsval) :=
  ({| url := str "/gamesession/history/" ++ sessionId ++ str "/restore";
      body := [("timestamp"%string, JStr timestamp)] |},
   fun _ => JUndefined).

End Api.

(** ** [utils/toolUtils.ts] *)

Module ToolUtils.

Import Js.

Definition isSuccess (content : jsval) : jsval :=
  if negb (truthy content) then JBool false
  else
    match typeof content with
    | TObject =>
        if has_key "success" content then get "success" content
        else if has_key "error" content then JBool false
        else JBool true
    | _ => JBool false
    end.

End ToolUtils.

(** ** The skill-check resolver *)

Module SkillCheck.

Local Open Scope Z_scope.

(** Modelled from the spec: the offset of a difficulty tier.  The
    resolver runs on the server, whose code is not part of the client
    sources; section 4.1 gives -20, 0 and +20. *)
Definition difficulty_offset (d : Difficulty) : Z :=
  match d with
  | favorable => -20
  | normal => 0
  | unfavorable => 20
  end.

(** Modelled from the spec: the clamp of the target to [1, 99]. *)
Definition clamp (lo hi x : Z) : Z := Z.max lo (Z.min hi x).

(** Modelled from the spec: the target of a skill check, section 4.1:
    [stat_value * 3 + skill_rank * 10 - difficulty_offset], clamped. *)
Definition target (stat_value skill_rank : Z) (d : Difficulty) : Z :=
  clamp 1 99 (stat_value * 3 + skill_rank * 10 - difficulty_offset d).

Record SkillCheckResult := {
  r_target : Z;
  r_roll : Z;
  r_success : bool;
  r_margin : Z
}.

Inductive ValidationError := NegativeRank.

(** Modelled from the spec: the verdict of the resolver against a roll,
    section 4.1: a negative rank is rejected; otherwise success iff
    [roll <= target], and the margin is [target - roll].  The difficulty
    tier is one of the three by its type. *)
Definition resolve (stat_value skill_rank : Z) (d : Difficulty) (roll : Z)
    : ValidationError + SkillCheckResult :=
  if skill_rank <? 0 then inl NegativeRank
  else
    let t := target stat_value skill_rank d in
    inr {| r_target := t;
           r_roll := roll;
           r_success := roll <=? t;
           r_margin := t - roll |}.

End SkillCheck.

(** ** What a control tag is, in the words of the specification

    A complete tag is [<<SPEAKER:...>>]: the opening, the keyword in any
    case, a colon, a name on one line, the closing, with optional blanks
    between them. *)

Module TagSpec.

Definition blank (s : jsstring) : Prop :=
  Forall (fun c => isWhiteSpace c = true) s.

Definition oneLine (s : jsstring) : Prop :=
  Forall (fun c => isLineTerminator c = false) s.

Definition keyword (s : jsstring) : Prop :=
  map canonicalize s = str "SPEAKER".

Inductive SpeakerTag : jsstring -> Prop :=
| speaker_tag (ws1 kw ws2 ws3 name ws4 : jsstring) :
    blank ws1 -> keyword kw -> blank ws2 ->
    blank ws3 -> oneLine name -> blank ws4 ->
    SpeakerTag (str "<<" ++ ws1 ++ kw ++ ws2 ++ str ":"
                ++ ws3 ++ name ++ ws4 ++ str ">>").

(** [t] is the first complete tag that [s] starts with: a tag, and no
    shorter start of [s] is one. *)
Definition FirstTag (s t rest : jsstring) : Prop :=
  s = t ++ rest /\ SpeakerTag t /\
  forall t' rest', s = t' ++ rest' -> SpeakerTag t' ->
                   (length t <= length t')%nat.

Definition NoTagAt (s : jsstring) : Prop :=
  forall t rest, s = t ++ rest -> ~ SpeakerTag t.

(** Reading [s] from the left, every complete tag is dropped and every
    other code unit is kept. *)
Inductive TagsRemoved : jsstring -> jsstring -> Prop :=
| removed_nil : TagsRemoved [] []
| removed_tag s t rest out :
    FirstTag s t rest -> TagsRemoved rest out -> TagsRemoved s out
| removed_keep x s out :
    NoTagAt (x :: s) -> TagsRemoved s out -> TagsRemoved (x :: s) (x :: out).

(** A tag that was opened and is not closed: it starts with [<<] and
    holds no [>>]. *)
Definition IncompleteTag (t : jsstring) : Prop :=
  (exists t', t = str "<<" ++ t') /\
  forall a b, t <> a ++ str ">>" ++ b.

(** The words of a pattern, without the order in which the matcher
    tries them. *)
Inductive Matches : regex -> jsstring -> Prop :=
| matches_nil : Matches [] []
| matches_char c r x t :
    canonicalize x = canonicalize c -> Matches r t ->
    Matches (Char c :: r) (x :: t)
| matches_star g cls r u t :
    Forall (fun c => cls c = true) u -> Matches r t ->
    Matches (Star g cls :: r) (u ++ t).

Fixpoint dropWhile (p : codeunit -> bool) (s : jsstring) : jsstring :=
  match s with
  | [] => []
  | x :: s' => if p x then dropWhile p s' else s
  end.

(** A pattern has the first-match property when what [exec] consumes is
    the shortest word of the pattern that the input starts with. *)
Definition FirstMatch (r : regex) : Prop :=
  forall s rest, exec r s = Some rest ->
  forall t' rest', s = t' ++ rest' -> Matches r t' ->
                   (length rest' <= length rest)%nat.

End TagSpec.

Import TagSpec.

(** ** What is observed of a timeline *)

Module Observe.

Definition emptyState : State := {| timeline := []; narrativeBuffer := [] |}.

(** The narration a reader sees: the texts of the [NARRATIVE] events, in
    order. *)
Fixpoint narrativeText (tl : list TimelineEvent) : jsstring :=
  match tl with
  | [] => []
  | e :: tl' =>
      if isNarrative e
      then contentToString (content e) ++ narrativeText tl'
      else narrativeText tl'
  end.

(** The number of places where two [NARRATIVE] events are next to each
    other. *)
Fixpoint adjacentNarratives (tl : list TimelineEvent) : nat :=
  match tl with
  | e1 :: ((e2 :: _) as tl') =>
      (if isNarrative e1 && isNarrative e2 then 1 else 0)
      + adjacentNarratives tl'
  | _ => 0
  end.

(** The event that [handleStreamEvent] pushes for a frame of one of the
    listed types. *)
Definition mechanicalEvent (now : jsstring) (t : EventType)
    (data : StreamData) : TimelineEvent :=
  {| type := t; timestamp := now; content := d_content data;
     icon := d_icon data; metadata := d_metadata data |}.

(** The types for which [getEventComponent] has a case. *)
Definition rendered (t : EventType) : bool :=
  match t with
  | USER_INPUT | SKILL_CHECK | COMBAT_ATTACK | COMBAT_DAMAGE | ITEM_ADDED
  | ITEM_CRAFTED | CURRENCY_CHANGE | SYSTEM_LOG | NARRATIVE => true
  | _ => false
  end.

End Observe.

Import Observe.

(** ** [views/GameView.vue]: reading the stream and sending an input *)

Module Turn.

(** [buffer.split('\n\n')]: the pieces between the occurrences of the
    separator, found from the left and not overlapping; a text without
    the separator is its own single piece. *)
Definition consFirst (x : codeunit) (parts : list jsstring) : list jsstring :=
  match parts with
  | p :: ps => (x :: p) :: ps
  | [] => [[x]]
  end.

Fixpoint splitBlank (s : jsstring) : list jsstring :=
  match s with
  | [] => [[]]
  | x :: s' =>
      match s' with
      | y :: s'' =>
          if ((x =? 10) && (y =? 10))%N then [] :: splitBlank s''
          else consFirst x (splitBlank s')
      | [] => [[x]]
      end
  end.

(** The separator of the frames, two line feeds. *)
Definition blankLine : jsstring := [10%N; 10%N].

(** [parts.join('\n\n')]. *)
Fixpoint joinBlank (parts : list jsstring) : jsstring :=
  match parts with
  | [] => []
  | [p] => p
  | p :: ps => p ++ blankLine ++ joinBlank ps
  end.

(** One step of the reading loop on the text read so far:
    [lines = buffer.split('\n\n'); buffer = lines.pop() || '']. *)
Definition feed (buffer value : jsstring) : list jsstring * jsstring :=
  let lines := splitBlank (buffer ++ value) in
  (removelast lines, last lines []).

(** [line.startsWith('data: ')] and [line.slice(6)]. *)
Definition payload (line : jsstring) : option jsstring :=
  if startsWith (str "data: ") line then Some (skipn 6 line) else None.

(** The lines that the loop takes out of the chunks, and the text it
    carries over at the end. *)
Fixpoint feedAll (chunks : list jsstring) (buffer : jsstring)
    : list jsstring * jsstring :=
  match chunks with
  | [] => ([], buffer)
  | value :: rest =>
      let (lines, buffer') := feed buffer value in
      let (more, final) := feedAll rest buffer' in
      (lines ++ more, final)
  end.

(** How the stream ends: the reader is done, or reading (or opening the
    stream) throws. *)
Inductive StreamEnd :=
| Done (endTime : jsstring)
| Failed (errorTime : jsstring).

(** The icon of the line pushed when the stream fails, U+26A0 U+FE0F. *)
Definition warningSign : jsstring := [9888%N; 65039%N].

Definition oracleError (now : jsstring) : TimelineEvent :=
  {| type := SYSTEM_LOG; timestamp := now;
     content := Text (str "Error communicating with the Oracle.");
     icon := Some warningSign; metadata := None |}.

Section Reader.

(** [JSON.parse] followed by the reading of the fields of the frame;
    [None] when the line is not the JSON of a frame, in which case the
    exception is caught and logged, or nothing is done. *)
Variable parse : jsstring -> option StreamData.

Definition handleLine (now line : jsstring) (st : State) : State :=
  match payload line with
  | Some p =>
      match parse p with
      | Some data => handleStreamEvent now data st
      | None => st
      end
  | None => st
  end.

Fixpoint handleLines (now : jsstring) (lines : list jsstring)
    (st : State) : State :=
  match lines with
  | [] => st
  | line :: rest => handleLines now rest (handleLine now line st)
  end.

(** The frames that the lines of a chunk amount to. *)
Definition frameOfLine (now line : jsstring) : list (jsstring * StreamData) :=
  match payload line with
  | Some p =>
      match parse p with
      | Some data => [(now, data)]
      | None => []
      end
  | None => []
  end.

Definition framesOf (now : jsstring) (lines : list jsstring)
    : list (jsstring * StreamData) :=
  flat_map (frameOfLine now) lines.

(** The [while] loop of [executeTurn]: each chunk, already decoded, comes
    with the reading of the clock while its lines are handled. *)
Fixpoint readLoop (chunks : list (jsstring * jsstring)) (buffer : jsstring)
    (st : State) : jsstring * State :=
  match chunks with
  | [] => (buffer, st)
  | (now, value) :: rest =>
      let (lines, buffer') := feed buffer value in
      readLoop rest buffer' (handleLines now lines st)
  end.

(** [executeTurn] on the chunks of the response: the loop, then the flush
    of what narration is left; when something throws, the error line is
    pushed instead. *)
Definition executeTurnStream (chunks : list (jsstring * jsstring))
    (fin : StreamEnd) (st : State) : State :=
  let st' := snd (readLoop chunks [] st) in
  match fin with
  | Done endTime => endOfStream endTime st'
  | Failed errorTime => push (oracleError errorTime) st'
  end.

End Reader.

(** [PlayerInput] of [services/api.ts]. *)
Inductive InputMode := text_mode | choice_mode.

Record PlayerInput := {
  input_mode : InputMode;
  text_content : jsstring;
  choice_data : option ChoiceData;
  hidden : bool
}.

(** The refs of the view that [sendText] and [sendChoice] read. *)
Record Session := {
  state : State;
  userInput : jsstring;
  loading : bool
}.

(** [s.trim()] removes the white space and line terminators at both
    ends. *)
Definition trim (s : jsstring) : jsstring :=
  rev (dropWhile isWhiteSpace (rev (dropWhile isWhiteSpace s))).

Definition userInputEvent (now text : jsstring) : TimelineEvent :=
  {| type := USER_INPUT; timestamp := now; content := Text text;
     icon := None; metadata := None |}.

(** [sendText] up to the point where [executeTurn] waits for the stream:
    the new session and the input that is sent, if any. *)
Definition sendText (now : jsstring) (s : Session)
    : Session * option PlayerInput :=
  if isEmpty (trim (userInput s)) || loading s then (s, None)
  else
    ({| state := push (userInputEvent now (userInput s)) (state s);
        userInput := [];
        loading := true |},
     Some {| input_mode := text_mode; text_content := userInput s;
             choice_data := None; hidden := false |}).

Definition sendChoice (now : jsstring) (choice : ChoiceData) (s : Session)
    : Session * option PlayerInput :=
  if loading s then (s, None)
  else
    ({| state := push (userInputEvent now (label choice)) (state s);
        userInput := userInput s;
        loading := true |},
     Some {| input_mode := choice_mode; text_content := [];
             choice_data := Some choice; hidden := false |}).

(** The rest of [executeTurn], once the stream has been read to its
    end. *)
Definition finishTurn (parse : jsstring -> option StreamData)
    (chunks : list (jsstring * jsstring)) (fin : StreamEnd)
    (s : Session) : Session :=
  {| state := executeTurnStream parse chunks fin (state s);
     userInput := userInput s;
     loading := false |}.

(** What a frame adds to the timeline besides narration. *)
Definition pushedEvent (now : jsstring) (data : StreamData)
    : list TimelineEvent :=
  if String.eqb (d_type data) "token" then []
  else
    match mechanicalType (d_type data) with
    | Some t => [mechanicalEvent now t data]
    | None =>
        if String.eqb (d_type data) "system_log" then
          [{| type := SYSTEM_LOG; timestamp := now;
              content := d_content data; icon := d_icon data;
              metadata := None |}]
        else if String.eqb (d_type data) "choices" then
          [{| type := CHOICE; timestamp := now; content := d_content data;
              icon := None; metadata := None |}]
        else if String.eqb (d_type data) "error" then
          [{| type := SYSTEM_LOG; timestamp := now;
              content := Text (str "Error: " ++ errorText data);
              icon := Some crossMark; metadata := None |}]
        else []
    end.

Definition pushedEvents (frames : list (jsstring * StreamData))
    : list TimelineEvent :=
  flat_map (fun f => pushedEvent (fst f) (snd f)) frames.

Definition notNarrative (e : TimelineEvent) : bool := negb (isNarrative e).

Definition tokenFrame (s : jsstring) : StreamData :=
  {| d_type := "token"; d_content := Text s; d_icon := None;
     d_metadata := None; d_details := None; d_error := None |}.

(** What a flush leaves when it holds nothing back. *)
Definition flushedAll (now : jsstring) (tl : list TimelineEvent)
    (text : jsstring) : State :=
  {| timeline := if isEmpty (replaceAll tagRegex text) then tl
                 else appendToTimeline now (replaceAll tagRegex text) tl;
     narrativeBuffer := [] |}.

(** The text holds no code unit [c]. *)
Definition noChar (c : codeunit) (s : jsstring) : Prop :=
  Forall (fun x => x <> c) s.

(** The buffer holds nothing, or a tag that was opened and not closed. *)
Definition HeldBack (buffer : jsstring) : Prop :=
  buffer = [] \/ IncompleteTag buffer.

End Turn.

Import Turn.

(** ** [views/GameView.vue]: loading and restoring the history

    [loadHistory], [restoreFrom] and [confirmRestore].  A request ends in
    one of two ways: its promise resolves with an answer, or it rejects and
    the [catch] of the caller runs.  [loadCharacter] catches its own
    failures, and the character sheet it refreshes is not part of the
    state. *)

Module Restore.

Record View := {
  restoreTargetTimestamp : option jsstring;
  showRestoreModal : bool
}.

(** The event components emit ['restore'] with [event.timestamp]. *)
Definition restoreFrom (timestamp : jsstring) (v : View) : View :=
  {| restoreTargetTimestamp := Some timestamp; showRestoreModal := true |}.

Definition clickRestore (event : TimelineEvent) (v : View) : View :=
  restoreFrom (timestamp event) v.

Inductive Outcome (A : Type) :=
| Resolved (answer : A)
| Rejected.

Arguments Resolved {A} answer.
Arguments Rejected {A}.

(** The input of the turn that starts a scenario. *)
Definition autoStartInput : PlayerInput :=
  {| input_mode := text_mode;
     text_content :=
       str "Start the scenario and present the initial situation.";
     choice_data := None;
     hidden := true |}.

Definition setLoading (b : bool) (s : Session) : Session :=
  {| state := state s; userInput := userInput s; loading := b |}.

Section Loading.

Variable parse : jsstring -> option StreamData.

(** [loadHistory]: nothing without a session; when [getHistory] rejects,
    nothing changes; otherwise the timeline becomes the history of the
    answer, or the empty one when the answer has none, and an empty
    timeline starts the scenario at once, [chunks] and [fin] being the
    stream of that first turn.  The input of that turn, if any, is
    returned with the session. *)
Definition loadHistory (sessionId : jsstring)
    (answer : Outcome (option (list TimelineEvent)))
    (chunks : list (jsstring * jsstring)) (fin : StreamEnd)
    (s : Session) : Session * option PlayerInput :=
  if isEmpty sessionId then (s, None)
  else
    match answer with
    | Rejected => (s, None)
    | Resolved history =>
        let st' :=
          {| timeline := match history with Some h => h | None => [] end;
             narrativeBuffer := narrativeBuffer (state s) |} in
        match timeline st' with
        | [] =>
            ({| state := executeTurnStream parse chunks fin st';
                userInput := userInput s;
                loading := false |},
             Some autoStartInput)
        | _ :: _ =>
            ({| state := st'; userInput := userInput s;
                loading := loading s |},
             None)
        end
    end.

(** [confirmRestore]: nothing is done without a target (a missing or
    empty one).  Otherwise the restore request goes out; when it resolves,
    the history is loaded again, the modal is closed and the target is
    forgotten; when it rejects, nothing is loaded and the modal and the
    target stay.  [loading] is true meanwhile and false at the end. *)
Definition confirmRestore (sessionId : jsstring)
    (restored : Outcome Api.RestoreHistoryResponse)
    (answer : Outcome (option (list TimelineEvent)))
    (chunks : list (jsstring * jsstring)) (fin : StreamEnd)
    (v : View) (s : Session) : option Api.PostRequest * View * Session :=
  match restoreTargetTimestamp v with
  | Some (c :: ts) =>
      let request := fst (Api.restoreHistory sessionId (c :: ts)) in
      match restored with
      | Resolved _ =>
          (Some request,
           {| restoreTargetTimestamp := None; showRestoreModal := false |},
           setLoading false
             (fst (loadHistory sessionId answer chunks fin
                     (setLoading true s))))
      | Rejected => (Some request, v, setLoading false s)
      end
  | _ => (None, v, s)
  end.

End Loading.

End Restore.

(** ** [utils/toolUtils.ts], the other helpers, and the titles of results *)

Module ToolArgs.

Import Js.

Section Parsed.

(** [JSON.parse] on a string; [None] when it throws. *)
Variable parse : jsstring -> option jsval.

Definition getParsedArgs (args : jsval) : jsval :=
  match args with
  | JStr s =>
      match parse s with
      | Some v => v
      | None => JObj []
      end
  | _ => if truthy args then args else JObj []
  end.

(** [resultContent] of the card of an inventory tool: the content of the
    result, parsed, or [null] when there is no result or its content is
    falsy. *)
Definition resultContent (content : option jsval) : jsval :=
  match content with
  | Some c => if truthy c then getParsedArgs c else JNull
  | None => JNull
  end.

End Parsed.

End ToolArgs.

Module Degree.

Import Js.

(** [s.replace(' ', '_')]: the first occurrence only. *)
Fixpoint replaceFirst (from to : codeunit) (s : jsstring) : jsstring :=
  match s with
  | [] => []
  | x :: s' =>
      if (x =? from)%N then to :: s' else x :: replaceFirst from to s'
  end.

(** [s.replace(/ /g, '_')]: every occurrence. *)
Definition replaceEvery (from to : codeunit) (s : jsstring) : jsstring :=
  map (fun x => if (x =? from)%N then to else x) s.

Definition space : codeunit := 32%N.
Definition underscore : codeunit := 95%N.

(** The number of occurrences of a code unit. *)
Definition countChar (c : codeunit) (s : jsstring) : nat :=
  length (filter (fun x => N.eqb x c) s).

Section Titles.

(** [String.prototype.toLowerCase] and the lookups of [vue-i18n], without
    and with a default message. *)
Variable toLowerCase : jsstring -> jsstring.
Variable t : jsstring -> jsstring.
Variable tDefault : jsstring -> jsstring -> jsstring.

(** [getDegreeTranslation] of [SkillCheckEvent.vue]. *)
Definition degreeKeyEvent (degree : jsstring) : jsstring :=
  replaceEvery space underscore (toLowerCase degree).

Definition getDegreeTranslation (degree : jsstring) : jsstring :=
  if isEmpty degree then []
  else t (str "results." ++ degreeKeyEvent degree).

(** [getResultTitle] of [SkillCheckToolResult.vue]; [None] when
    [content.degree.toLowerCase] is not a function and the call throws. *)
Definition degreeKeyTool (degree : jsstring) : jsstring :=
  replaceFirst space underscore (toLowerCase degree).

Definition getResultTitle (content : jsval) : option jsstring :=
  if negb (truthy content) then Some (t (str "results.result"))
  else
    match typeof content with
    | TObject =>
        if has_key "degree" content then
          match get "degree" content with
          | JStr degree =>
              Some (tDefault (str "results." ++ degreeKeyTool degree) degree)
          | _ => None
          end
        else if truthy (ToolUtils.isSuccess content)
             then Some (t (str "results.success"))
             else Some (t (str "results.failure"))
    | _ =>
        if truthy (ToolUtils.isSuccess content)
        then Some (t (str "results.success"))
        else Some (t (str "results.failure"))
    end.

End Titles.

End Degree.

(** ** Sample inputs *)

Module Samples.

Definition noon : jsstring := str "2024-05-01T12:00:00.000Z".

Definition skillCheckFrame : StreamData :=
  {| d_type := "SKILL_CHECK"; d_content := Text (str "Stealth: 55 / 62");
     d_icon := None; d_metadata := None;
     d_details := None; d_error := None |}.

Definition choiceEvent : TimelineEvent :=
  {| type := CHOICE; timestamp := noon; content := Choices [];
     icon := None; metadata := None |}.

Definition skillCheckEvent : TimelineEvent :=
  mechanicalEvent noon SKILL_CHECK skillCheckFrame.

Definition restored : Api.RestoreHistoryResponse :=
  {| Api.message := str "History restored";
     Api.restored_to_index := 3;
     Api.remaining_messages_count := 4 |}.

Definition closedView : Restore.View :=
  {| Restore.restoreTargetTimestamp := None;
     Restore.showRestoreModal := false |}.

End Samples.

Import Samples.

(** ** More sample inputs *)

Module TurnSamples.

Definition parseNothing : jsstring -> option StreamData := fun _ => None.

Definition parseNoValue : jsstring -> option jsval := fun _ => None.

Definition typing : Session :=
  {| state := emptyState; userInput := str "look around"; loading := false |}.

Definition blankTyping : Session :=
  {| state := emptyState; userInput := str "   "; loading := false |}.

(** The tag [<< speaker : Mara >>] without its closing. *)
Definition spacedTagOpen : jsstring := str "<< speaker : Mara ".

End TurnSamples.

Import TurnSamples.

(** * Properties *)

(** ** The matcher against the words of its pattern *)

Section Matcher.

Lemma exec_char c r x s :
  exec (Char c :: r) (x :: s) =
  if N.eqb (canonicalize x) (canonicalize c) then exec r s else None.
Proof. reflexivity. Qed.

Lemma exec_greedy_nil cls r : exec (Star true cls :: r) [] = exec r [].
Proof. reflexivity. Qed.

Lemma exec_greedy_cons cls r x s :
  exec (Star true cls :: r) (x :: s) =
  if cls x then
    match exec (Star true cls :: r) s with
    | Some rest => Some rest
    | None => exec r (x :: s)
    end
  else exec r (x :: s).
Proof. reflexivity. Qed.

Lemma exec_lazy cls r s :
  exec (Star false cls :: r) s =
  match exec r s with
  | Some rest => Some rest
  | None =>
      match s with
      | x :: s' => if cls x then exec (Star false cls :: r) s' else None
      | [] => None
      end
  end.
Proof. destruct s; reflexivity. Qed.

(** What the matcher consumes is a word of the pattern. *)
Lemma exec_sound r :
  forall s rest, exec r s = Some rest ->
                 exists t, s = t ++ rest /\ Matches r t.
Proof.
  induction r as [|n r IH]; intros s rest H.
  - injection H as <-. exists []. split; [reflexivity | constructor].
  - destruct n as [c | [|] cls].
    + destruct s as [|x s]; [discriminate|].
      rewrite exec_char in H.
      destruct (N.eqb_spec (canonicalize x) (canonicalize c)) as [E|];
        [|discriminate].
      destruct (IH _ _ H) as (t & -> & M).
      exists (x :: t). split; [reflexivity | now constructor].
    + revert rest H. induction s as [|x s IHs]; intros rest H.
      * rewrite exec_greedy_nil in H.
        destruct (IH _ _ H) as (t & E & M).
        exists t. split; [exact E|].
        now apply (matches_star true cls (u := [])).
      * rewrite exec_greedy_cons in H.
        destruct (cls x) eqn:Hx.
        -- destruct (exec (Star true cls :: r) s) as [rest'|] eqn:G.
           ++ injection H as <-.
              destruct (IHs _ eq_refl) as (t & -> & M).
              inversion M as [| |g' cls' r' u t' Hu Mt]; subst.
              exists ((x :: u) ++ t'). split.
              ** now rewrite <- !app_assoc.
              ** constructor; [now constructor | exact Mt].
           ++ destruct (IH _ _ H) as (t & E & M).
              exists t. split; [exact E|].
              now apply (matches_star true cls (u := [])).
        -- destruct (IH _ _ H) as (t & E & M).
           exists t. split; [exact E|].
           now apply (matches_star true cls (u := [])).
    + revert rest H. induction s as [|x s IHs]; intros rest H;
        rewrite exec_lazy in H.
      * destruct (exec r []) as [rest'|] eqn:G; [|discriminate].
        injection H as <-.
        destruct (IH _ _ G) as (t & E & M).
        exists t. split; [exact E|].
        now apply (matches_star false cls (u := [])).
      * destruct (exec r (x :: s)) as [rest'|] eqn:G.
        -- injection H as <-.
           destruct (IH _ _ G) as (t & E & M).
           exists t. split; [exact E|].
           now apply (matches_star false cls (u := [])).
        -- destruct (cls x) eqn:Hx; [|discriminate].
           destruct (IHs _ H) as (t & -> & M).
           inversion M as [| |g' cls' r' u t' Hu Mt]; subst.
           exists ((x :: u) ++ t'). split.
           ++ now rewrite <- !app_assoc.
           ++ constructor; [now constructor | exact Mt].
Qed.

(** Whenever [s] starts with a word of the pattern, the matcher finds a
    match. *)
Lemma exec_complete r :
  forall t rest, Matches r t -> exists rest', exec r (t ++ rest) = Some rest'.
Proof.
  induction r as [|n r IH]; intros t rest M.
  - exists (t ++ rest). reflexivity.
  - inversion M as [|c r' x t' E Mt|g cls r' u t' Hu Mt]; subst.
    + simpl app. rewrite exec_char, E, N.eqb_refl. now apply IH.
    + rewrite <- app_assoc.
      destruct (IH _ rest Mt) as (rest' & Hr).
      destruct g.
      * induction Hu as [|x u Hx Hu IHu].
        -- simpl app. destruct (t' ++ rest) as [|y s] eqn:Es.
           ++ rewrite exec_greedy_nil. eauto.
           ++ rewrite exec_greedy_cons.
              destruct (cls y); [|eauto].
              destruct (exec (Star true cls :: r) s); eauto.
        -- simpl app. rewrite exec_greedy_cons, Hx.
           destruct IHu as (rest'' & ->); [now constructor|]. eauto.
      * induction Hu as [|x u Hx Hu IHu].
        -- simpl app. rewrite exec_lazy, Hr. eauto.
        -- simpl app. rewrite exec_lazy.
           destruct (exec r (x :: u ++ t' ++ rest)); [eauto|].
           rewrite Hx. apply IHu. now constructor.
Qed.

Lemma exec_none r s :
  exec r s = None -> forall t rest, s = t ++ rest -> ~ Matches r t.
Proof.
  intros H t rest -> M.
  destruct (exec_complete rest M) as (rest' & E). congruence.
Qed.

End Matcher.

(** ** The pattern and the tags of the specification *)

Section Tags.

Lemma canonicalize_punct x c :
  canonicalize x = canonicalize c -> (c < 65)%N -> x = c.
Proof.
  unfold canonicalize. intros H L.
  destruct ((97 <=? c) && (c <=? 122))%N eqn:Ec.
  - apply andb_prop in Ec. destruct Ec as [Ec _].
    apply N.leb_le in Ec. lia.
  - destruct ((97 <=? x) && (x <=? 122))%N eqn:E; [|exact H].
    apply andb_prop in E. destruct E as [E1 E2].
    apply N.leb_le in E1. apply N.leb_le in E2. lia.
Qed.

Lemma forall_dot name :
  Forall (fun c => isDot c = true) name <-> oneLine name.
Proof.
  unfold oneLine, isDot.
  split; intros H; induction H; constructor; auto;
    now apply negb_true_iff.
Qed.

Lemma matches_char_inv c r t :
  Matches (Char c :: r) t ->
  exists x t', t = x :: t' /\ canonicalize x = canonicalize c /\ Matches r t'.
Proof. intros M. inversion M; subst. eauto. Qed.

Lemma matches_star_inv g cls r t :
  Matches (Star g cls :: r) t ->
  exists u t', t = u ++ t' /\ Forall (fun c => cls c = true) u /\ Matches r t'.
Proof. intros M. inversion M; subst. eauto. Qed.

Lemma matches_nil_inv t : Matches [] t -> t = [].
Proof. intros M. now inversion M. Qed.

(** A literal outside the letters is matched by itself only. *)
Lemma matches_punct_inv c r t :
  (c < 65)%N -> Matches (Char c :: r) t ->
  exists t', t = c :: t' /\ Matches r t'.
Proof.
  intros L M. apply matches_char_inv in M.
  destruct M as (x & t' & -> & E & M).
  apply canonicalize_punct in E; [subst x | exact L]. eauto.
Qed.

Lemma matches_closing t : Matches closing t <-> t = str ">>".
Proof.
  split.
  - intros M.
    apply matches_punct_inv in M; [|reflexivity].
    destruct M as (t1 & -> & M).
    apply matches_punct_inv in M; [|reflexivity].
    destruct M as (t2 & -> & M).
    apply matches_nil_inv in M. now subst.
  - intros ->. do 2 (constructor; [reflexivity|]). constructor.
Qed.

Lemma matches_blanksClosing t :
  Matches blanksClosing t <-> exists w, blank w /\ t = w ++ str ">>".
Proof.
  split.
  - intros M. apply matches_star_inv in M.
    destruct M as (w & t' & -> & Hw & M).
    apply matches_closing in M. subst. eauto.
  - intros (w & Hw & ->).
    constructor; [exact Hw | now apply matches_closing].
Qed.

Lemma matches_nameClosing t :
  Matches nameClosing t <->
  exists name w, oneLine name /\ blank w /\ t = name ++ w ++ str ">>".
Proof.
  split.
  - intros M. apply matches_star_inv in M.
    destruct M as (name & t' & -> & Hn & M).
    apply matches_blanksClosing in M. destruct M as (w & Hw & ->).
    exists name, w. repeat split; [now apply forall_dot | exact Hw].
  - intros (name & w & Hn & Hw & ->).
    constructor; [now apply forall_dot|].
    apply matches_blanksClosing. eauto.
Qed.

Lemma matches_afterColon t :
  Matches afterColon t <->
  exists ws3 name ws4,
    blank ws3 /\ oneLine name /\ blank ws4 /\
    t = ws3 ++ name ++ ws4 ++ str ">>".
Proof.
  split.
  - intros M. apply matches_star_inv in M.
    destruct M as (ws3 & t' & -> & H3 & M).
    apply matches_nameClosing in M.
    destruct M as (name & ws4 & Hn & H4 & ->).
    exists ws3, name, ws4. now repeat split.
  - intros (ws3 & name & ws4 & H3 & Hn & H4 & ->).
    constructor; [exact H3|].
    apply matches_nameClosing. eauto.
Qed.

(** The words of the pattern are the complete tags. *)
Lemma matches_tag t : Matches tagRegex t -> SpeakerTag t.
Proof.
  unfold tagRegex, literal. cbn [str map app of_ascii]. intros M.
  apply matches_punct_inv in M; [|reflexivity].
  destruct M as (t1 & -> & M).
  apply matches_punct_inv in M; [|reflexivity].
  destruct M as (t2 & -> & M).
  apply matches_star_inv in M. destruct M as (ws1 & t3 & -> & H1 & M).
  apply matches_char_inv in M. destruct M as (k1 & t4 & -> & K1 & M).
  apply matches_char_inv in M. destruct M as (k2 & t5 & -> & K2 & M).
  apply matches_char_inv in M. destruct M as (k3 & t6 & -> & K3 & M).
  apply matches_char_inv in M. destruct M as (k4 & t7 & -> & K4 & M).
  apply matches_char_inv in M. destruct M as (k5 & t8 & -> & K5 & M).
  apply matches_char_inv in M. destruct M as (k6 & t9 & -> & K6 & M).
  apply matches_char_inv in M. destruct M as (k7 & t10 & -> & K7 & M).
  apply matches_star_inv in M. destruct M as (ws2 & t11 & -> & H2 & M).
  apply matches_punct_inv in M; [|reflexivity].
  destruct M as (t12 & -> & M).
  apply matches_afterColon in M.
  destruct M as (ws3 & name & ws4 & H3 & Hn & H4 & ->).
  refine (@speaker_tag ws1 [k1; k2; k3; k4; k5; k6; k7] ws2 ws3 name ws4
            H1 _ H2 H3 Hn H4).
  unfold keyword. cbn [map]. now rewrite K1, K2, K3, K4, K5, K6, K7.
Qed.

Lemma tag_matches t : SpeakerTag t -> Matches tagRegex t.
Proof.
  intros [ws1 kw ws2 ws3 name ws4 H1 Hk H2 H3 Hn H4].
  unfold keyword in Hk.
  do 8 (destruct kw as [|? kw]; try discriminate).
  cbn [map str of_ascii] in Hk.
  injection Hk as E1 E2 E3 E4 E5 E6 E7.
  unfold tagRegex, literal. cbn [str map app of_ascii].
  do 2 (constructor; [reflexivity|]).
  constructor; [exact H1|].
  cbn [app].
  do 7 (constructor; [assumption|]).
  constructor; [exact H2|].
  constructor; [reflexivity|].
  apply matches_afterColon. eauto 8.
Qed.

End Tags.

(** ** The matcher stops at the first complete tag *)

Section Shortest.

Lemma first_match_nil : FirstMatch [].
Proof.
  intros s rest H t' rest' -> _. injection H as <-.
  rewrite length_app. lia.
Qed.

Lemma first_match_char c r : FirstMatch r -> FirstMatch (Char c :: r).
Proof.
  intros F s rest H t' rest' E M.
  inversion M as [|c' r' x t E' Mt|]; subst.
  simpl app in H. rewrite exec_char, E', N.eqb_refl in H.
  exact (F _ _ H _ _ eq_refl Mt).
Qed.

Lemma dropWhile_run cls u s :
  Forall (fun c => cls c = true) u ->
  (match s with [] => True | x :: _ => cls x = false end) ->
  dropWhile cls (u ++ s) = s.
Proof.
  intros Hu Hs. induction Hu as [|x u Hx _ IH]; simpl.
  - destruct s as [|y s]; [reflexivity|]. simpl. now rewrite Hs.
  - now rewrite Hx.
Qed.

(** A greedy star in front of a literal that is outside its class takes
    the whole run, and nothing else can match. *)
Lemma exec_greedy_literal cls c r :
  (forall x, cls x = true ->
             N.eqb (canonicalize x) (canonicalize c) = false) ->
  forall s, exec (Star true cls :: Char c :: r) s =
            exec (Char c :: r) (dropWhile cls s).
Proof.
  intros D. induction s as [|x s IH].
  - reflexivity.
  - rewrite exec_greedy_cons. simpl dropWhile.
    destruct (cls x) eqn:Hx; [|reflexivity].
    rewrite IH. destruct (exec (Char c :: r) (dropWhile cls s)); [reflexivity|].
    rewrite exec_char, (D _ Hx). reflexivity.
Qed.

Lemma first_match_greedy_literal cls c r :
  (forall x, cls x = true ->
             N.eqb (canonicalize x) (canonicalize c) = false) ->
  FirstMatch (Char c :: r) -> FirstMatch (Star true cls :: Char c :: r).
Proof.
  intros D F s rest H t' rest' E M.
  rewrite exec_greedy_literal in H by exact D.
  inversion M as [| |g cls' r' u t Hu Mt]; subst.
  apply (F _ _ H t rest'); [|exact Mt].
  rewrite <- app_assoc. apply dropWhile_run; [exact Hu|].
  inversion Mt as [|c' r' x t0 E' _|]; subst. simpl.
  destruct (cls x) eqn:Hx; [|reflexivity].
  apply D in Hx. rewrite E', N.eqb_refl in Hx. discriminate.
Qed.

Ltac bools :=
  repeat match goal with
  | H : (_ || _)%bool = true |- _ => apply orb_prop in H; destruct H as [H|H]
  | H : (_ && _)%bool = true |- _ => apply andb_prop in H; destruct H
  | H : (_ <=? _)%N = true |- _ => apply N.leb_le in H
  | H : (_ =? _)%N = true |- _ => apply N.eqb_eq in H
  end.

Lemma blank_canonicalize x : isWhiteSpace x = true -> canonicalize x = x.
Proof.
  intros H. unfold canonicalize.
  destruct ((97 <=? x) && (x <=? 122))%N eqn:E; [|reflexivity].
  exfalso. unfold isWhiteSpace in H. bools; lia.
Qed.

Lemma blank_not_literal c :
  isWhiteSpace (canonicalize c) = false ->
  forall x, isWhiteSpace x = true ->
            N.eqb (canonicalize x) (canonicalize c) = false.
Proof.
  intros Hc x Hx. rewrite (blank_canonicalize _ Hx).
  apply N.eqb_neq. intros ->. congruence.
Qed.

Lemma first_match_blanksClosing : FirstMatch blanksClosing.
Proof.
  apply first_match_greedy_literal.
  - now apply blank_not_literal.
  - do 2 apply first_match_char. exact first_match_nil.
Qed.

Lemma blank_nth w k :
  blank w -> (k < length w)%nat -> isWhiteSpace (nth k w 0%N) = true.
Proof.
  intros Hw Hk. unfold blank in Hw. rewrite Forall_forall in Hw.
  apply Hw. now apply nth_In.
Qed.

Lemma first_match_nameClosing : FirstMatch nameClosing.
Proof.
  intros s. induction s as [|x s IH]; intros rest H t' rest' E M;
    unfold nameClosing in H; rewrite exec_lazy in H;
    fold blanksClosing in H.
  - vm_compute in H. discriminate.
  - destruct (exec blanksClosing (x :: s)) as [rest0|] eqn:G.
    + injection H as ->.
      apply exec_sound in G. destruct G as (t4 & E4 & M4).
      apply matches_blanksClosing in M4. destruct M4 as (w0 & Hw0 & ->).
      apply matches_nameClosing in M.
      destruct M as (name & w & Hn & Hw & ->).
      rewrite E in E4.
      destruct (Nat.le_gt_cases (length rest') (length rest)) as [L|L];
        [exact L | exfalso].
      assert (K : (length (name ++ w) < length w0)%nat).
      { apply (f_equal (@length _)) in E4.
        repeat (rewrite ?length_app in E4; simpl in E4).
        rewrite length_app. lia. }
      apply (f_equal (fun l => nth (length (name ++ w)) l 0%N)) in E4.
      rewrite <- !app_assoc in E4. cbn [str app] in E4.
      rewrite (app_assoc name w), nth_middle in E4.
      rewrite app_nth1 in E4 by exact K.
      pose proof (blank_nth Hw0 K) as B. rewrite <- E4 in B. discriminate.
    + fold nameClosing in H.
      destruct (isDot x) eqn:Hx; [|discriminate].
      pose proof M as M'. apply matches_nameClosing in M'.
      destruct M' as (name & w & Hn & Hw & ->).
      destruct name as [|y name].
      * exfalso. change (x :: s = (w ++ str ">>") ++ rest') in E.
        assert (M4 : Matches blanksClosing (w ++ str ">>"))
          by (apply matches_blanksClosing; eauto).
        destruct (exec_complete rest' M4) as (r' & Hr').
        rewrite <- E in Hr'. congruence.
      * injection E as -> ->.
        apply (IH _ H (name ++ w ++ str ">>") rest' eq_refl).
        apply matches_nameClosing. inversion Hn; subst. eauto 6.
Qed.

Lemma dropWhile_blank cls u s :
  Forall (fun c => cls c = true) u -> dropWhile cls (u ++ s) = dropWhile cls s.
Proof.
  intros Hu. induction Hu as [|x u Hx _ IH]; simpl; [reflexivity|].
  now rewrite Hx.
Qed.

(** Dropping leading blanks from a name, blanks and the closing leaves a
    (shorter) name, blanks and the closing. *)
Lemma dropWhile_name name w tail :
  oneLine name -> blank w ->
  exists name' w',
    oneLine name' /\ blank w' /\
    dropWhile isWhiteSpace (name ++ w ++ str ">>" ++ tail)
    = name' ++ w' ++ str ">>" ++ tail.
Proof.
  intros Hn Hw. induction Hn as [|y name Hy Hn IH].
  - exists [], []. repeat split; try constructor.
    simpl app. rewrite dropWhile_run; [reflexivity | exact Hw | reflexivity].
  - simpl app. simpl dropWhile. destruct (isWhiteSpace y).
    + exact IH.
    + exists (y :: name), w. repeat split; [now constructor | exact Hw].
Qed.

Lemma exec_afterColon s :
  exec afterColon s = exec nameClosing (dropWhile isWhiteSpace s).
Proof.
  induction s as [|x s IH]; [reflexivity|].
  unfold afterColon. rewrite exec_greedy_cons. fold afterColon.
  simpl dropWhile. destruct (isWhiteSpace x) eqn:Hx; [|reflexivity].
  rewrite IH.
  destruct (exec nameClosing (dropWhile isWhiteSpace s)) eqn:G;
    [reflexivity|].
  destruct (exec nameClosing (x :: s)) as [rest|] eqn:G'; [|reflexivity].
  exfalso. apply exec_sound in G'. destruct G' as (t & E & M).
  apply matches_nameClosing in M. destruct M as (name & w & Hn & Hw & ->).
  destruct (dropWhile_name rest Hn Hw) as (name' & w' & Hn' & Hw' & D).
  rewrite <- !app_assoc in E. rewrite <- E in D.
  simpl dropWhile in D. rewrite Hx in D.
  assert (M : Matches nameClosing (name' ++ w' ++ str ">>"))
    by (apply matches_nameClosing; eauto 6).
  destruct (exec_complete rest M) as (r' & Hr').
  rewrite <- !app_assoc in Hr'. rewrite <- D in Hr'. congruence.
Qed.

Lemma first_match_afterColon : FirstMatch afterColon.
Proof.
  intros s rest H t' rest' E M.
  rewrite exec_afterColon in H.
  inversion M as [| |g cls r u t Hu Mt]; subst.
  apply matches_nameClosing in Mt. destruct Mt as (name & w & Hn & Hw & ->).
  destruct (dropWhile_name rest' Hn Hw) as (name' & w' & Hn' & Hw' & D).
  apply (@first_match_nameClosing _ _ H (name' ++ w' ++ str ">>") rest').
  - rewrite <- !app_assoc. rewrite dropWhile_blank by exact Hu. exact D.
  - apply matches_nameClosing. eauto 6.
Qed.

Lemma first_match_tagRegex : FirstMatch tagRegex.
Proof.
  unfold tagRegex, literal. cbn [str map app].
  do 2 apply first_match_char.
  apply first_match_greedy_literal; [now apply blank_not_literal|].
  do 7 apply first_match_char.
  apply first_match_greedy_literal; [now apply blank_not_literal|].
  apply first_match_char.
  exact first_match_afterColon.
Qed.

End Shortest.


(** ** Removing the tags of a text *)

Section Removal.

Lemma exec_first_tag s rest :
  exec tagRegex s = Some rest -> exists t, FirstTag s t rest.
Proof.
  intros H. pose proof H as H'. apply exec_sound in H'.
  destruct H' as (t & E & M).
  exists t. split; [exact E|]. split; [now apply matches_tag|].
  intros t' rest' E' T'.
  pose proof (@first_match_tagRegex _ _ H t' rest' E' (tag_matches T')) as L.
  apply (f_equal (@length _)) in E. rewrite E' in E.
  rewrite !length_app in E. lia.
Qed.

Lemma exec_no_tag s : exec tagRegex s = None -> NoTagAt s.
Proof.
  intros H t rest E T.
  eapply exec_none; [exact H | exact E | now apply tag_matches].
Qed.

Lemma tag_closed t : SpeakerTag t -> exists a, t = a ++ str ">>".
Proof.
  intros [ws1 kw ws2 ws3 name ws4 _ _ _ _ _ _].
  exists (str "<<" ++ ws1 ++ kw ++ ws2 ++ str ":" ++ ws3 ++ name ++ ws4).
  now rewrite <- !app_assoc.
Qed.

Lemma tag_nonempty t : SpeakerTag t -> (0 < length t)%nat.
Proof.
  intros T. destruct (tag_closed T) as (a & ->).
  rewrite length_app. simpl. lia.
Qed.

Lemma replace_loop_removed fuel :
  forall s, (length s <= fuel)%nat ->
            TagsRemoved s (replace_loop tagRegex fuel s).
Proof.
  induction fuel as [|fuel IH]; intros s L.
  - destruct s; [constructor | simpl in L; lia].
  - destruct s as [|x s]; [constructor|].
    cbn [replace_loop].
    destruct (exec tagRegex (x :: s)) as [rest|] eqn:G.
    + destruct (exec_first_tag _ G) as (t & F).
      pose proof F as (E & T & _).
      apply (f_equal (@length _)) in E. rewrite length_app in E.
      pose proof (tag_nonempty T) as P.
      replace (length rest <? length (x :: s))%nat with true
        by (symmetry; apply Nat.ltb_lt; lia).
      apply removed_tag with (t := t) (rest := rest); [exact F|].
      apply IH. simpl in L, E. lia.
    + apply removed_keep; [now apply exec_no_tag|].
      apply IH. simpl in L. lia.
Qed.

(** [replaceAll] computes the removal of the complete tags. *)
Lemma replaceAll_removed s : TagsRemoved s (replaceAll tagRegex s).
Proof. apply replace_loop_removed. reflexivity. Qed.

Lemma app_eq_length (a b c d : jsstring) :
  a ++ b = c ++ d -> length a = length c -> a = c /\ b = d.
Proof.
  revert c. induction a as [|x a IH]; intros [|y c] E L;
    try discriminate; simpl in *.
  - now split.
  - injection E as -> E. injection L as L.
    destruct (IH _ E L) as [-> ->]. now split.
Qed.

Lemma first_tag_unique s t1 r1 t2 r2 :
  FirstTag s t1 r1 -> FirstTag s t2 r2 -> t1 = t2 /\ r1 = r2.
Proof.
  intros (E1 & T1 & S1) (E2 & T2 & S2).
  pose proof (S1 _ _ E2 T2). pose proof (S2 _ _ E1 T1).
  apply app_eq_length; [congruence | lia].
Qed.

(** The removal is a function of the text. *)
Lemma TagsRemoved_unique s o1 :
  TagsRemoved s o1 -> forall o2, TagsRemoved s o2 -> o1 = o2.
Proof.
  induction 1 as [|s t rest out F _ IH|x s out N _ IH]; intros o2 R2.
  - inversion R2 as [|s' t' rest' out' F' _|]; subst; [reflexivity|].
    destruct F' as (E & T & _). apply tag_nonempty in T.
    destruct t'; [simpl in T; lia | discriminate].
  - inversion R2 as [|s' t' rest' out' F' R'|x s' out' N' R']; subst.
    + destruct F as (E & T & _). apply tag_nonempty in T.
      destruct t; [simpl in T; lia | discriminate].
    + destruct (first_tag_unique F F') as [_ <-]. now apply IH.
    + destruct F as (E & T & _). now destruct (N' _ _ E).
  - inversion R2 as [|s' t' rest' out' F' R'|x' s' out' N' R']; subst.
    + destruct F' as (E & T & _). now destruct (N _ _ E).
    + f_equal. now apply IH.
Qed.

(** A prefix of [p ++ t] either lies within [p] or reaches into [t]. *)
Lemma app_split (p t a b : jsstring) :
  p ++ t = a ++ b ->
  (exists c, p = a ++ c /\ b = c ++ t) \/
  (exists c, c <> [] /\ a = p ++ c /\ t = c ++ b).
Proof.
  revert a. induction p as [|x p IH]; intros a E.
  - destruct a as [|y a].
    + left. exists []. now split.
    + right. exists (y :: a). repeat split; [discriminate | exact E].
  - destruct a as [|y a].
    + left. exists (x :: p). split; [reflexivity | exact (eq_sym E)].
    + injection E as <- E. destruct (IH _ E) as [(c & -> & ->)|(c & N & -> & ->)].
      * left. exists c. now split.
      * right. exists c. now repeat split.
Qed.

(** A complete tag cannot end inside an incomplete one. *)
Lemma no_tag_into_incomplete p t u rest :
  IncompleteTag t -> p ++ t = u ++ rest -> SpeakerTag u ->
  exists c, p = u ++ c /\ rest = c ++ t.
Proof.
  intros [(t' & St) Nc] E T.
  destruct (app_split _ _ _ _ E) as [H|(c & N & -> & Et)]; [exact H|].
  exfalso. destruct (tag_closed T) as (a & Ea).
  destruct (@exists_last _ c N) as (c1 & z & ->).
  change (str ">>") with ([62%N] ++ [62%N]) in Ea.
  rewrite !app_assoc in Ea.
  apply app_inj_tail in Ea. destruct Ea as [Ea ->].
  destruct c1 as [|y c1].
  - rewrite St in Et. discriminate.
  - destruct (@exists_last _ (y :: c1) ltac:(discriminate)) as (c2 & z & Ec).
    rewrite Ec, app_assoc in Ea.
    apply app_inj_tail in Ea. destruct Ea as [_ ->].
    apply (Nc c2 rest). rewrite Et, Ec.
    now rewrite <- !app_assoc.
Qed.

Lemma TagsRemoved_no_closing t :
  (forall a b, t <> a ++ str ">>" ++ b) -> TagsRemoved t t.
Proof.
  induction t as [|x t IH]; intros Nc; [constructor|].
  apply removed_keep.
  - intros u rest E T. destruct (tag_closed T) as (a & ->).
    apply (Nc a rest). now rewrite E, <- app_assoc.
  - apply IH. intros a b ->. now apply (Nc (x :: a) b).
Qed.

(** An incomplete tag at the end of the text is kept as it is. *)
Lemma TagsRemoved_incomplete p out t :
  IncompleteTag t -> TagsRemoved p out -> TagsRemoved (p ++ t) (out ++ t).
Proof.
  intros I R. induction R as [|s u rest out F _ IH|x s out N _ IH].
  - apply TagsRemoved_no_closing. apply I.
  - destruct F as (E & T & Sh).
    apply removed_tag with (t := u) (rest := rest ++ t); [|exact IH].
    split; [now rewrite E, app_assoc|]. split; [exact T|].
    intros u' rest' E' T'.
    destruct (no_tag_into_incomplete _ _ I E' T') as (c & Ec & _).
    exact (Sh _ _ Ec T').
  - apply removed_keep with (x := x) (s := s ++ t); [|exact IH].
    intros u' rest' E' T'.
    destruct (no_tag_into_incomplete (x :: s) _ I E' T') as (c & Ec & _).
    exact (N _ _ Ec T').
Qed.

End Removal.

(** ** The timeline under [appendToTimeline] *)

Section Timeline.

Lemma lastEventOf_snoc l e : lastEventOf (l ++ [e]) = Some e.
Proof.
  induction l as [|x l IH]; [reflexivity|].
  simpl app. destruct (l ++ [e]) eqn:E.
  - destruct l; discriminate.
  - exact IH.
Qed.

Lemma appendToTimeline_nil now c :
  appendToTimeline now c [] = [narrativeEvent now c].
Proof. reflexivity. Qed.

Lemma appendToTimeline_snoc now c l e :
  appendToTimeline now c (l ++ [e]) =
  if isNarrative e then l ++ [addContent e c]
  else l ++ [e; narrativeEvent now c].
Proof.
  unfold appendToTimeline. rewrite lastEventOf_snoc.
  destruct (isNarrative e).
  - now rewrite removelast_last.
  - now rewrite <- app_assoc.
Qed.

Lemma timeline_cases (tl : list TimelineEvent) :
  tl = [] \/ exists l e, tl = l ++ [e].
Proof.
  destruct tl as [|x tl]; [now left | right].
  destruct (@exists_last _ (x :: tl) ltac:(discriminate)) as (l & e & ->).
  eauto.
Qed.

Lemma narrativeText_app l1 l2 :
  narrativeText (l1 ++ l2) = narrativeText l1 ++ narrativeText l2.
Proof.
  induction l1 as [|e l1 IH]; [reflexivity|].
  simpl. destruct (isNarrative e); rewrite IH; [|reflexivity].
  now rewrite app_assoc.
Qed.

(** Appending a chunk appends it to the narration. *)
Lemma narrativeText_append now c tl :
  narrativeText (appendToTimeline now c tl) = narrativeText tl ++ c.
Proof.
  destruct (timeline_cases tl) as [->|(l & e & ->)].
  - simpl. now rewrite app_nil_r.
  - rewrite appendToTimeline_snoc.
    destruct (isNarrative e) eqn:E; rewrite !narrativeText_app; simpl.
    + unfold isNarrative in *. simpl. rewrite E.
      now rewrite !app_nil_r, <- app_assoc.
    + rewrite E. simpl. now rewrite !app_nil_r.
Qed.

Lemma adjacentNarratives_cons e1 e2 tl :
  adjacentNarratives (e1 :: e2 :: tl) =
  ((if isNarrative e1 && isNarrative e2 then 1 else 0)
   + adjacentNarratives (e2 :: tl))%nat.
Proof. reflexivity. Qed.

Lemma adjacentNarratives_snoc l e1 e2 :
  adjacentNarratives (l ++ [e1; e2]) =
  (adjacentNarratives (l ++ [e1])
   + if isNarrative e1 && isNarrative e2 then 1 else 0)%nat.
Proof.
  induction l as [|x l IH].
  - simpl. lia.
  - destruct l as [|y l].
    + simpl. lia.
    + change ((x :: y :: l) ++ [e1; e2]) with (x :: y :: (l ++ [e1; e2])).
      change ((x :: y :: l) ++ [e1]) with (x :: y :: (l ++ [e1])).
      rewrite !adjacentNarratives_cons.
      change (y :: l ++ [e1; e2]) with ((y :: l) ++ [e1; e2]).
      change (y :: l ++ [e1]) with ((y :: l) ++ [e1]).
      rewrite IH. lia.
Qed.

Lemma adjacentNarratives_last l e e' :
  isNarrative e' = isNarrative e ->
  adjacentNarratives (l ++ [e']) = adjacentNarratives (l ++ [e]).
Proof.
  intros E. destruct (timeline_cases l) as [->|(l0 & x & ->)].
  - reflexivity.
  - rewrite <- !app_assoc. simpl app.
    now rewrite !adjacentNarratives_snoc, E.
Qed.

Lemma adjacentNarratives_append now c tl :
  adjacentNarratives (appendToTimeline now c tl) = adjacentNarratives tl.
Proof.
  destruct (timeline_cases tl) as [->|(l & e & ->)]; [reflexivity|].
  rewrite appendToTimeline_snoc. destruct (isNarrative e) eqn:E.
  - apply adjacentNarratives_last. reflexivity.
  - rewrite adjacentNarratives_snoc, E. simpl. lia.
Qed.

(** What is in the timeline up to an event that is not narration stays
    as it is, whatever is appended afterwards. *)
Lemma appendToTimeline_prefix now c p ev l :
  isNarrative ev = false ->
  exists l', appendToTimeline now c (p ++ ev :: l) = p ++ ev :: l'.
Proof.
  intros Hev. destruct (timeline_cases l) as [->|(l0 & e & ->)].
  - change (p ++ [ev]) with (p ++ [ev]).
    rewrite appendToTimeline_snoc, Hev. eauto.
  - replace (p ++ ev :: l0 ++ [e]) with ((p ++ ev :: l0) ++ [e])
      by now rewrite <- app_assoc.
    rewrite appendToTimeline_snoc.
    destruct (isNarrative e); rewrite <- app_assoc; simpl; eauto.
Qed.

End Timeline.

(** ** The stream handler *)

Section Stream.

Lemma startsWith_app pat b : startsWith pat (pat ++ b) = true.
Proof.
  induction pat as [|x pat IH]; [reflexivity|].
  simpl. now rewrite N.eqb_refl, IH.
Qed.

Lemma includes_app pat a b : includes pat (a ++ pat ++ b) = true.
Proof.
  induction a as [|x a IH].
  - simpl app. destruct (pat ++ b) eqn:E; simpl;
      rewrite <- E, startsWith_app; reflexivity.
  - simpl. rewrite IH. apply orb_true_r.
Qed.

Lemma includes_false pat s :
  includes pat s = false -> forall a b, s <> a ++ pat ++ b.
Proof.
  intros H a b ->. rewrite includes_app in H. discriminate.
Qed.

Lemma flush_force_buffer now st :
  narrativeBuffer (flushNarrativeBuffer now true st) = [].
Proof.
  unfold flushNarrativeBuffer.
  destruct (narrativeBuffer st) eqn:E; simpl; [exact E | reflexivity].
Qed.

Lemma flush_force_timeline now st :
  timeline (flushNarrativeBuffer now true st) =
  let out := replaceAll tagRegex (narrativeBuffer st) in
  if isEmpty out then timeline st
  else appendToTimeline now out (timeline st).
Proof.
  unfold flushNarrativeBuffer.
  destruct (narrativeBuffer st) eqn:E; reflexivity.
Qed.

Lemma flush_timeline_cases now force st :
  timeline (flushNarrativeBuffer now force st) = timeline st \/
  exists c, timeline (flushNarrativeBuffer now force st)
            = appendToTimeline now c (timeline st).
Proof.
  unfold flushNarrativeBuffer.
  destruct (isEmpty (narrativeBuffer st)); [now left|].
  match goal with |- context [if ?b then _ else _] => destruct b end.
  - match goal with |- context [if ?b then _ else _] => destruct b end;
      [right; eexists; reflexivity | now left].
  - simpl.
    destruct (isEmpty (replaceAll tagRegex (narrativeBuffer st)));
      [now left | right; eexists; reflexivity].
Qed.

Lemma flush_prefix now force st p ev l :
  isNarrative ev = false -> timeline st = p ++ ev :: l ->
  exists l', timeline (flushNarrativeBuffer now force st) = p ++ ev :: l'.
Proof.
  intros Hev E.
  destruct (flush_timeline_cases now force st) as [->|(c & ->)].
  - eauto.
  - rewrite E. now apply appendToTimeline_prefix.
Qed.

Lemma push_prefix e st p ev l :
  timeline st = p ++ ev :: l ->
  exists l', timeline (push e st) = p ++ ev :: l'.
Proof.
  intros E. exists (l ++ [e]). simpl. now rewrite E, <- app_assoc.
Qed.

Lemma handleStreamEvent_prefix now data st p ev l :
  isNarrative ev = false -> timeline st = p ++ ev :: l ->
  exists l', timeline (handleStreamEvent now data st) = p ++ ev :: l'.
Proof.
  intros Hev E. unfold handleStreamEvent.
  destruct (String.eqb (d_type data) "token").
  - now apply flush_prefix with (l := l).
  - destruct (@flush_prefix now true st p ev l Hev E) as (l1 & E1).
    destruct (mechanicalType (d_type data));
      [now apply push_prefix with (l := l1)|].
    repeat match goal with
           | |- context [if ?b then _ else _] => destruct b
           end;
      first [now apply push_prefix with (l := l1) | eauto].
Qed.

Lemma handleFrames_prefix frames :
  forall st p ev l,
    isNarrative ev = false -> timeline st = p ++ ev :: l ->
    exists l', timeline (handleFrames frames st) = p ++ ev :: l'.
Proof.
  induction frames as [|[now data] frames IH]; intros st p ev l Hev E.
  - eauto.
  - simpl.
    destruct (@handleStreamEvent_prefix now data st p ev l Hev E) as (l1 & E1).
    exact (IH _ _ _ _ Hev E1).
Qed.

Lemma handleFrames_app f1 f2 st :
  handleFrames (f1 ++ f2) st = handleFrames f2 (handleFrames f1 st).
Proof.
  revert st. induction f1 as [|[now data] f1 IH]; intros st;
    [reflexivity | apply IH].
Qed.

Lemma mechanicalType_not_token s t :
  mechanicalType s = Some t -> String.eqb s "token" = false.
Proof.
  intros H. destruct (String.eqb_spec s "token") as [->|]; [|reflexivity].
  discriminate.
Qed.

Lemma mechanicalType_not_narrative s t :
  mechanicalType s = Some t -> EventType_eqb t NARRATIVE = false.
Proof.
  unfold mechanicalType.
  repeat match goal with
         | |- context [if ?b then _ else _] => destruct b
         end; intros H; inversion H; reflexivity.
Qed.

Lemma handleStreamEvent_mechanical now data st t :
  mechanicalType (d_type data) = Some t ->
  handleStreamEvent now data st =
  push (mechanicalEvent now t data) (flushNarrativeBuffer now true st).
Proof.
  intros H. unfold handleStreamEvent.
  now rewrite (mechanicalType_not_token _ H), H.
Qed.

End Stream.

(** * The streamed narration *)

Section Narration.

(** C1.  The narration tokens "Hello <<SPE" and "AKER:Mara>> there",
    handled in this order and followed by the end of the stream, append
    the chunks "Hello " and " there" to the timeline: the narration gains
    exactly "Hello  there", the buffer ends empty, and on an empty
    timeline the result is the single narrative event "Hello  there". *)
Theorem speaker_tag_split_in_two_chunks :
  forall (tl : list TimelineEvent) (now1 now2 now3 : jsstring),
    let frames := [(now1, token "Hello <<SPE");
                   (now2, token "AKER:Mara>> there")] in
    let st' := executeTurn frames now3
                 {| timeline := tl; narrativeBuffer := [] |} in
    timeline st' = appendToTimeline now2 (str " there")
                     (appendToTimeline now1 (str "Hello ") tl)
    /\ narrativeBuffer st' = []
    /\ narrativeText (timeline st')
       = narrativeText tl ++ str "Hello  there"
    /\ executeTurn frames now3 emptyState
       = {| timeline := [narrativeEvent now1 (str "Hello  there")];
            narrativeBuffer := [] |}.
Proof.
  intros tl now1 now2 now3 frames st'.
  assert (E : st' = {| timeline := appendToTimeline now2 (str " there")
                         (appendToTimeline now1 (str "Hello ") tl);
                       narrativeBuffer := [] |}) by reflexivity.
  rewrite E. cbn [timeline narrativeBuffer].
  repeat split.
  rewrite !narrativeText_append, <- app_assoc. reflexivity.
Qed.

(** C2.  When the two characters of the opening fall into two tokens,
    "Hello <" and "<SPEAKER:Mara>> there", neither flush without force
    sees an incomplete tag: the chunks "Hello <" and
    "<SPEAKER:Mara>> there" are appended as they are and the timeline
    shows the complete tag. *)
Theorem split_opening_leaks_tag :
  forall (now1 now2 now3 : jsstring),
    let st1 := handleStreamEvent now1 (token "Hello <") emptyState in
    let st2 := handleStreamEvent now2 (token "<SPEAKER:Mara>> there") st1 in
    st1 = {| timeline := [narrativeEvent now1 (str "Hello <")];
             narrativeBuffer := [] |}
    /\ timeline st2
       = appendToTimeline now2 (str "<SPEAKER:Mara>> there") (timeline st1)
    /\ executeTurn [(now1, token "Hello <");
                    (now2, token "<SPEAKER:Mara>> there")] now3 emptyState
       = {| timeline :=
              [narrativeEvent now1 (str "Hello <<SPEAKER:Mara>> there")];
            narrativeBuffer := [] |}
    /\ (SpeakerTag (str "<<SPEAKER:Mara>>")
       /\ str "Hello <<SPEAKER:Mara>> there"
          = str "Hello " ++ str "<<SPEAKER:Mara>>" ++ str " there").
Proof.
  intros now1 now2 now3 st1 st2. repeat split.
  apply matches_tag.
  assert (E : exec tagRegex (str "<<SPEAKER:Mara>>") = Some [])
    by reflexivity.
  apply exec_sound in E. destruct E as (t & E & M).
  rewrite app_nil_r in E. now subst.
Qed.

(** C3.  The flush with force, which is what the end of the stream runs,
    leaves the buffer empty and appends the buffer with its complete tags
    removed; an incomplete tag at the end of the buffer is appended as it
    is. *)
Theorem forced_flush_removes_tags :
  forall (now : jsstring) (tl : list TimelineEvent) (b : jsstring),
    let st := {| timeline := tl; narrativeBuffer := b |} in
    let st' := flushNarrativeBuffer now true st in
    narrativeBuffer st' = []
    /\ endOfStream now st = st'
    /\ exists out,
         TagsRemoved b out
         /\ timeline st'
            = (if isEmpty out then tl else appendToTimeline now out tl)
         /\ narrativeText (timeline st') = narrativeText tl ++ out
         /\ forall p t, b = p ++ t -> IncompleteTag t ->
              exists out', TagsRemoved p out' /\ out = out' ++ t.
Proof.
  intros now tl b st st'. split; [apply flush_force_buffer|].
  split.
  { unfold endOfStream, st', st. simpl. destruct b; reflexivity. }
  exists (replaceAll tagRegex b).
  pose proof (replaceAll_removed b) as R.
  assert (T : timeline st' =
              if isEmpty (replaceAll tagRegex b) then tl
              else appendToTimeline now (replaceAll tagRegex b) tl)
    by apply flush_force_timeline.
  repeat split; [exact R | exact T | |].
  - rewrite T. destruct (replaceAll tagRegex b) eqn:E; simpl isEmpty;
      cbv iota.
    + now rewrite app_nil_r.
    + apply narrativeText_append.
  - intros p t -> I. exists (replaceAll tagRegex p).
    split; [apply replaceAll_removed|].
    apply (TagsRemoved_unique R).
    apply TagsRemoved_incomplete; [exact I | apply replaceAll_removed].
Qed.

Lemma incomplete_tag_sample : IncompleteTag (str "<<SPE").
Proof.
  split.
  - exists (str "SPE"). reflexivity.
  - apply includes_false. reflexivity.
Defined.

Lemma forced_flush_witness :
  exists out out',
    TagsRemoved (str "Hi <<SPEAKER:Mara>> you <<SPE") out
    /\ TagsRemoved (str "Hi <<SPEAKER:Mara>> you ") out'
    /\ out = out' ++ str "<<SPE".
Proof.
  destruct (forced_flush_removes_tags noon []
              (str "Hi <<SPEAKER:Mara>> you <<SPE"))
    as (_ & _ & out & R & _ & _ & I).
  destruct (I (str "Hi <<SPEAKER:Mara>> you ") (str "<<SPE")
              eq_refl incomplete_tag_sample) as (out' & R' & E).
  exists out, out'. repeat split; assumption.
Defined.

(** C9.  [appendToTimeline] merges streamed narration: on a timeline
    that ends with a [NARRATIVE] event the content is added to that event
    and the length stays; otherwise one [NARRATIVE] event is added at the
    end.  In both cases the narration gains exactly the content and no
    two adjacent [NARRATIVE] events are created. *)
Theorem appendToTimeline_coalesces :
  forall (now c : jsstring) (tl : list TimelineEvent),
    let tl' := appendToTimeline now c tl in
    (forall l e, tl = l ++ [e] -> isNarrative e = true ->
                 tl' = l ++ [addContent e c] /\ length tl' = length tl)
    /\ (forall l e, tl = l ++ [e] -> isNarrative e = false ->
                    tl' = tl ++ [narrativeEvent now c])
    /\ (tl = [] -> tl' = [narrativeEvent now c])
    /\ narrativeText tl' = narrativeText tl ++ c
    /\ adjacentNarratives tl' = adjacentNarratives tl.
Proof.
  intros now c tl tl'. unfold tl'.
  split; [|split; [|split; [|split]]].
  - intros l e -> E. rewrite appendToTimeline_snoc, E.
    split; [reflexivity | now rewrite !length_app].
  - intros l e -> E.
    now rewrite appendToTimeline_snoc, E, <- app_assoc.
  - now intros ->.
  - apply narrativeText_append.
  - apply adjacentNarratives_append.
Qed.

Lemma appendToTimeline_witness :
  isNarrative (narrativeEvent noon (str "Hello ")) = true
  /\ appendToTimeline noon (str "there") [narrativeEvent noon (str "Hello ")]
     = [addContent (narrativeEvent noon (str "Hello ")) (str "there")].
Proof.
  split; [reflexivity|].
  exact (proj1 (proj1 (appendToTimeline_coalesces noon (str "there")
                         [narrativeEvent noon (str "Hello ")])
                  [] (narrativeEvent noon (str "Hello "))
                  eq_refl eq_refl)).
Defined.

End Narration.

(** * Rendering, restoring, tool results *)

Section Rendering.

(** C5, as the code has it.  Every event whose type has a case in
    [getEventComponent] (user input, skill check, combat attack and
    damage, item added and crafted, currency change, system log,
    narrative) gets a component; a [CHOICE] event gets none, its choices
    being drawn by the block of choices of the view. *)
Theorem rendered_types_have_component :
  forall e : TimelineEvent,
    (rendered (type e) = true -> exists c, getEventComponent e = Some c)
    /\ (type e = CHOICE -> getEventComponent e = None).
Proof.
  intros e. unfold getEventComponent. split.
  - destruct (type e); simpl; intros H; try discriminate; eauto.
  - now intros ->.
Qed.

Lemma rendered_witness :
  rendered (type skillCheckEvent) = true
  /\ exists c, getEventComponent skillCheckEvent = Some c.
Proof.
  split; [reflexivity|].
  exact (proj1 (rendered_types_have_component skillCheckEvent) eq_refl).
Defined.

(** C5, as stated, fails on a [CHOICE] event, which is in the closed set
    of types: the dispatcher answers [null]. *)
Lemma choice_event_has_no_component :
  getEventComponent choiceEvent = None.
Proof. reflexivity. Qed.




(** C10.  [isSuccess] on every value: false on a falsy value and on a
    value that is not an object; on an object, the value of [success] when
    the key is there, false when [error] is there without [success], true
    otherwise, the empty object and arrays included. *)
Theorem isSuccess_cases :
  (forall v, Js.truthy v = false -> ToolUtils.isSuccess v = JBool false)
  /\ (forall v, Js.typeof v <> Js.TObject ->
                ToolUtils.isSuccess v = JBool false)
  /\ (forall props x, Js.lookup "success" props = Some x ->
                      ToolUtils.isSuccess (JObj props) = x)
  /\ (forall props x, Js.lookup "success" props = None ->
                      Js.lookup "error" props = Some x ->
                      ToolUtils.isSuccess (JObj props) = JBool false)
  /\ (forall props, Js.lookup "success" props = None ->
                    Js.lookup "error" props = None ->
                    ToolUtils.isSuccess (JObj props) = JBool true)
  /\ ToolUtils.isSuccess (JObj []) = JBool true
  /\ (forall items, ToolUtils.isSuccess (JArr items) = JBool true).
Proof.
  unfold ToolUtils.isSuccess.
  split; [|split; [|split; [|split; [|split; [|split]]]]].
  - intros v H. now rewrite H.
  - intros v H. destruct (Js.truthy v); [|reflexivity].
    destruct v; simpl in *; congruence.
  - intros props x H. simpl. now rewrite H.
  - intros props x H1 H2. simpl. now rewrite H1, H2.
  - intros props H1 H2. simpl. now rewrite H1, H2.
  - reflexivity.
  - reflexivity.
Qed.

Lemma isSuccess_witness :
  ToolUtils.isSuccess (JObj [("roll"%string, JStr (str "55"));
                             ("success"%string, JBool false)])
  = JBool false
  /\ ToolUtils.isSuccess (JObj [("error"%string, JStr (str "no such skill"))])
     = JBool false
  /\ ToolUtils.isSuccess (JStr []) = JBool false.
Proof.
  destruct isSuccess_cases as (F & _ & S & E & _).
  split; [apply S with (x := JBool false); reflexivity|].
  split; [|apply F; reflexivity].
  apply E with (x := JStr (str "no such skill")); reflexivity.
Defined.

End Rendering.

(** * The skill check *)

Section Skill.

Import SkillCheck.
Local Open Scope Z_scope.

(** C7.  The target is between 1 and 99 for all inputs, and for the same
    stat and rank the favorable target is at least the normal one, which
    is at least the unfavorable one. *)
Theorem target_clamped_and_ordered :
  forall (stat_value skill_rank : Z) (d : Difficulty),
    1 <= target stat_value skill_rank d <= 99
    /\ target stat_value skill_rank unfavorable
       <= target stat_value skill_rank normal
    /\ target stat_value skill_rank normal
       <= target stat_value skill_rank favorable.
Proof.
  intros stat_value skill_rank d.
  unfold target, clamp. destruct d; simpl difficulty_offset; lia.
Qed.

(** C8.  A skill check with a rank that is not negative has a result;
    it is a success exactly when the roll is at most the target, a roll
    equal to the target included, and its margin is the target minus the
    roll.  Stat 14, rank 2, normal difficulty give the target 62, and the
    roll 55 is a success with margin 7. *)
Theorem success_iff_roll_at_most_target :
  forall (stat_value skill_rank : Z) (d : Difficulty) (roll : Z),
    0 <= skill_rank ->
    (exists r,
       resolve stat_value skill_rank d roll = inr r
       /\ r_target r = target stat_value skill_rank d
       /\ r_roll r = roll
       /\ (r_success r = true <-> roll <= r_target r)
       /\ (roll = r_target r -> r_success r = true)
       /\ r_margin r = r_target r - roll)
    /\ resolve 14 2 normal 55
       = inr {| r_target := 62; r_roll := 55;
                r_success := true; r_margin := 7 |}.
Proof.
  intros stat_value skill_rank d roll H. split; [|reflexivity].
  unfold resolve.
  destruct (Z.ltb_spec skill_rank 0) as [L|_]; [lia|].
  eexists. split; [reflexivity|]. simpl.
  repeat split.
  - apply Z.leb_le.
  - apply Z.leb_le.
  - intros ->. apply Z.leb_refl.
Qed.

Lemma skill_check_witness :
  0 <= 2
  /\ exists r, resolve 14 2 normal 62 = inr r
               /\ r_target r = 62 /\ r_success r = true /\ r_margin r = 0.
Proof.
  assert (H : 0 <= 2) by lia.
  split; [exact H|].
  destruct (@success_iff_roll_at_most_target 14 2 normal 62 H)
    as ((r & E & T & _ & _ & B & M) & _).
  exists r. change (target 14 2 normal) with 62 in T.
  repeat split; [exact E | exact T | | ].
  - apply B. now rewrite T.
  - rewrite M, T. reflexivity.
Defined.

End Skill.

(** * The rest of the view *)

(** ** Frames out of chunks *)

Section Frames.

Lemma splitBlank_cons2 x y s :
  splitBlank (x :: y :: s) =
  if ((x =? 10) && (y =? 10))%N then [] :: splitBlank s
  else consFirst x (splitBlank (y :: s)).
Proof. reflexivity. Qed.

Lemma splitBlank_nonempty s : splitBlank s <> [].
Proof.
  destruct s as [|x [|y s]]; try discriminate.
  rewrite splitBlank_cons2.
  destruct ((x =? 10) && (y =? 10))%N; [discriminate|].
  destruct (splitBlank (y :: s)); discriminate.
Qed.

(** Induction two code units at a time, as [splitBlank] recurses. *)
Lemma jsstring_ind2 (P : jsstring -> Prop) :
  P [] -> (forall x, P [x]) ->
  (forall x y s, P s -> P (y :: s) -> P (x :: y :: s)) ->
  forall s, P s.
Proof.
  intros H0 H1 H2 s.
  assert (H : P s /\ forall x, P (x :: s)).
  { induction s as [|y s [IH1 IH2]].
    - split; [exact H0 | exact H1].
    - split; [apply IH2 | intros x; apply H2; [exact IH1 | apply IH2]]. }
  apply H.
Qed.

(** Splitting and joining again gives the text back. *)
Lemma joinBlank_consFirst x parts :
  parts <> [] -> joinBlank (consFirst x parts) = x :: joinBlank parts.
Proof.
  destruct parts as [|p [|q ps]]; [congruence | reflexivity | reflexivity].
Qed.

Lemma joinBlank_splitBlank s : joinBlank (splitBlank s) = s.
Proof.
  induction s as [| x | x y s IH1 IH2] using jsstring_ind2;
    try reflexivity.
  rewrite splitBlank_cons2.
  destruct (N.eqb_spec x 10) as [->|]; cbn [andb]; cbv iota.
  - destruct (N.eqb_spec y 10) as [->|]; cbv iota.
    + pose proof (splitBlank_nonempty s) as N.
      destruct (splitBlank s) as [|p ps] eqn:E; [congruence|].
      change (joinBlank ([] :: p :: ps))
        with ([] ++ blankLine ++ joinBlank (p :: ps)).
      rewrite IH1. reflexivity.
    + rewrite joinBlank_consFirst by apply splitBlank_nonempty.
      now rewrite IH2.
  - rewrite joinBlank_consFirst by apply splitBlank_nonempty.
    now rewrite IH2.
Qed.

Lemma splitBlank_single s p : splitBlank s = [p] -> p = s.
Proof.
  intros E. pose proof (joinBlank_splitBlank s) as J.
  rewrite E in J. exact J.
Qed.

Lemma splitBlank_cons x u :
  (N.eqb x 10 && match u with y :: _ => N.eqb y 10 | [] => false end)%bool
  = false ->
  splitBlank (x :: u) = consFirst x (splitBlank u).
Proof.
  destruct u as [|y u]; intros H; [reflexivity|].
  rewrite splitBlank_cons2, H. reflexivity.
Qed.

(** Splitting a text that goes on: the complete pieces stay, the last
    piece is split again with what follows. *)
Lemma splitBlank_app s t :
  splitBlank (s ++ t) =
  removelast (splitBlank s) ++ splitBlank (last (splitBlank s) [] ++ t).
Proof.
  revert t. pattern s. apply jsstring_ind2; clear s;
    [reflexivity | reflexivity |].
  intros x y s IH1 IH2 t.
  change ((x :: y :: s) ++ t) with (x :: y :: (s ++ t)).
  rewrite !splitBlank_cons2.
  destruct ((x =? 10) && (y =? 10))%N eqn:Sep.
  - rewrite IH1.
    pose proof (splitBlank_nonempty s) as N.
    destruct (splitBlank s) as [|p ps]; [congruence | reflexivity].
  - change (y :: s ++ t) with ((y :: s) ++ t). rewrite IH2.
    pose proof (splitBlank_nonempty (y :: s)) as N.
    destruct (splitBlank (y :: s)) as [|p [|q ps]] eqn:E; [congruence | |].
    + apply splitBlank_single in E. subst p.
      cbn [consFirst removelast last app].
      rewrite splitBlank_cons2, Sep. reflexivity.
    + reflexivity.
Qed.

(** The piece that is carried over holds no separator. *)
Lemma splitBlank_last s :
  splitBlank (last (splitBlank s) []) = [last (splitBlank s) []].
Proof.
  pose proof (splitBlank_app s []) as H. rewrite !app_nil_r in H.
  rewrite (app_removelast_last [] (splitBlank_nonempty s)) in H at 1.
  now apply app_inv_head in H.
Qed.

Lemma splitBlank_whole s :
  splitBlank s = [s] -> includes blankLine s = false.
Proof.
  pattern s. apply jsstring_ind2; clear s.
  - reflexivity.
  - intros x _. simpl. now rewrite andb_false_r.
  - intros x y s IH1 IH2 E. rewrite splitBlank_cons2 in E.
    destruct ((x =? 10) && (y =? 10))%N eqn:Sep.
    + pose proof (splitBlank_nonempty s). 
      destruct (splitBlank s); [congruence | discriminate].
    + pose proof (splitBlank_nonempty (y :: s)) as N.
      destruct (splitBlank (y :: s)) as [|p [|q ps]] eqn:E';
        [congruence | | discriminate].
      injection E as ->.
      change (includes blankLine (x :: y :: s))
        with (startsWith blankLine (x :: y :: s) || includes blankLine (y :: s)).
      rewrite (IH2 eq_refl), orb_false_r.
      unfold blankLine. cbn [startsWith].
      now rewrite andb_true_r, (N.eqb_sym 10 x), (N.eqb_sym 10 y).
Qed.

Lemma removelast_app_nonempty (A : Type) (l m : list A) :
  m <> [] -> removelast (l ++ m) = l ++ removelast m.
Proof. intros H. now apply removelast_app. Qed.

Lemma last_app_nonempty (A : Type) (l m : list A) (d : A) :
  m <> [] -> last (l ++ m) d = last m d.
Proof.
  intros H. induction l as [|x l IH]; [reflexivity|].
  simpl app. destruct (l ++ m) eqn:E.
  - destruct l; [simpl in E; congruence | discriminate].
  - exact IH.
Qed.

(** Feeding a chunk and then another is feeding both at once. *)
Lemma feed_feed buffer v1 v2 :
  feed buffer (v1 ++ v2) =
  (fst (feed buffer v1) ++ fst (feed (snd (feed buffer v1)) v2),
   snd (feed (snd (feed buffer v1)) v2)).
Proof.
  unfold feed. cbn [fst snd].
  rewrite app_assoc, splitBlank_app.
  rewrite removelast_app_nonempty by apply splitBlank_nonempty.
  rewrite last_app_nonempty by apply splitBlank_nonempty.
  reflexivity.
Qed.

Lemma feed_nil buffer :
  splitBlank buffer = [buffer] -> feed buffer [] = ([], buffer).
Proof. intros H. unfold feed. now rewrite app_nil_r, H. Qed.

Lemma feed_carries buffer value :
  splitBlank (snd (feed buffer value)) = [snd (feed buffer value)].
Proof. apply splitBlank_last. Qed.

Lemma feedAll_concat chunks :
  forall buffer, splitBlank buffer = [buffer] ->
                 feedAll chunks buffer = feed buffer (concat chunks).
Proof.
  induction chunks as [|v chunks IH]; intros buffer H.
  - simpl. now rewrite feed_nil.
  - cbn [feedAll concat]. rewrite feed_feed.
    destruct (feed buffer v) as [lines buffer'] eqn:F. cbn [fst snd].
    assert (H' : splitBlank buffer' = [buffer']).
    { pose proof (feed_carries buffer v) as C. now rewrite F in C. }
    rewrite (IH _ H').
    now destruct (feed buffer' (concat chunks)).
Qed.

Lemma joinBlank_app l m :
  m <> [] -> joinBlank (l ++ m) = joinBlank (l ++ [joinBlank m]).
Proof.
  intros H. induction l as [|p l IH].
  - reflexivity.
  - simpl app. destruct (l ++ m) as [|j l0] eqn:E1.
    + destruct l; [simpl in E1; congruence | discriminate].
    + destruct (l ++ [joinBlank m]) as [|j0 l1] eqn:E2.
      * destruct l; discriminate.
      * change (p ++ blankLine ++ joinBlank (j :: l0)
                = p ++ blankLine ++ joinBlank (j0 :: l1)).
        now rewrite IH.
Qed.

Lemma joinBlank_snoc_app l p c :
  joinBlank (l ++ [p ++ c]) = joinBlank (l ++ [p]) ++ c.
Proof.
  induction l as [|q l IH]; [reflexivity|].
  simpl app.
  destruct (l ++ [p ++ c]) as [|j l0] eqn:E1; [destruct l; discriminate|].
  destruct (l ++ [p]) as [|j0 l1] eqn:E2; [destruct l; discriminate|].
  change (q ++ blankLine ++ joinBlank (j :: l0)
          = (q ++ blankLine ++ joinBlank (j0 :: l1)) ++ c).
  now rewrite IH, <- !app_assoc.
Qed.

Lemma feed_joins buffer value :
  joinBlank (fst (feed buffer value) ++ [snd (feed buffer value)])
  = buffer ++ value.
Proof.
  unfold feed. cbn [fst snd].
  rewrite <- app_removelast_last by apply splitBlank_nonempty.
  apply joinBlank_splitBlank.
Qed.

Lemma feedAll_joins chunks :
  forall buffer,
    joinBlank (fst (feedAll chunks buffer) ++ [snd (feedAll chunks buffer)])
    = buffer ++ concat chunks.
Proof.
  induction chunks as [|v chunks IH]; intros buffer.
  - simpl. now rewrite app_nil_r.
  - cbn [feedAll concat].
    pose proof (feed_joins buffer v) as J.
    destruct (feed buffer v) as [lines buffer'].
    pose proof (IH buffer') as J'.
    destruct (feedAll chunks buffer') as [more final].
    cbn [fst snd] in *.
    rewrite <- app_assoc, joinBlank_app by (destruct more; discriminate).
    rewrite J', joinBlank_snoc_app, app_assoc. f_equal. exact J.
Qed.

End Frames.


Section Reading.

Variable parse : jsstring -> option StreamData.

Lemma handleLines_frames now lines :
  forall st, handleLines parse now lines st
             = handleFrames (framesOf parse now lines) st.
Proof.
  induction lines as [|line lines IH]; intros st; [reflexivity|].
  cbn [handleLines framesOf flat_map]. rewrite handleFrames_app.
  fold (framesOf parse now lines). rewrite <- IH. f_equal.
  unfold handleLine, frameOfLine.
  destruct (payload line) as [p|]; [|reflexivity].
  destruct (parse p); reflexivity.
Qed.

Lemma handleLines_app now l1 l2 st :
  handleLines parse now (l1 ++ l2) st
  = handleLines parse now l2 (handleLines parse now l1 st).
Proof.
  revert st. induction l1 as [|x l1 IH]; intros st; [reflexivity|].
  simpl. apply IH.
Qed.

Lemma readLoop_buffer chunks :
  forall buffer st,
    fst (readLoop parse chunks buffer st)
    = snd (feedAll (map snd chunks) buffer).
Proof.
  induction chunks as [|[now v] chunks IH]; intros buffer st;
    [reflexivity|].
  cbn [readLoop map snd feedAll].
  destruct (feed buffer v) as [lines buffer'].
  rewrite IH. now destruct (feedAll (map snd chunks) buffer').
Qed.

Lemma readLoop_same_clock now chunks :
  forall buffer st,
    snd (readLoop parse (map (fun v => (now, v)) chunks) buffer st)
    = handleLines parse now (fst (feedAll chunks buffer)) st.
Proof.
  induction chunks as [|v chunks IH]; intros buffer st; [reflexivity|].
  cbn [readLoop map feedAll].
  destruct (feed buffer v) as [lines buffer'].
  rewrite IH. destruct (feedAll chunks buffer') as [more final].
  cbn [fst]. now rewrite handleLines_app.
Qed.

End Reading.


Section Search.

Lemma startsWith_true pat s :
  startsWith pat s = true -> exists t, s = pat ++ t.
Proof.
  revert s. induction pat as [|p pat IH]; intros s H.
  - exists s. reflexivity.
  - destruct s as [|x s]; [discriminate|]. simpl in H.
    apply andb_prop in H. destruct H as [E H].
    apply N.eqb_eq in E. subst x.
    destruct (IH _ H) as (t & ->). now exists t.
Qed.

Lemma startsWith_nil p pat : startsWith (p :: pat) [] = false.
Proof. reflexivity. Qed.

Lemma skipn_occurrence (s a pat b : jsstring) :
  s = a ++ pat ++ b -> startsWith pat (skipn (length a) s) = true.
Proof.
  intros ->. rewrite skipn_app, skipn_all, Nat.sub_diag. simpl.
  apply startsWith_app.
Qed.

(** [lastIndexOf] returns the last position at which the pattern occurs,
    or what was found before when it does not occur. *)
Lemma lastIndexOf_from_spec p pat s :
  forall i found,
    let r := lastIndexOf_from (p :: pat) s i found in
    (r = found /\ forall k, startsWith (p :: pat) (skipn k s) = false)
    \/ (exists k : nat,
          r = (i + Z.of_nat k)%Z /\ (k < length s)%nat
          /\ startsWith (p :: pat) (skipn k s) = true
          /\ forall k', (k < k')%nat ->
                        startsWith (p :: pat) (skipn k' s) = false).
Proof.
  induction s as [|x s IH]; intros i found r.
  - left. split; [reflexivity|]. intros k. now rewrite skipn_nil.
  - subst r. cbn [lastIndexOf_from].
    destruct (IH (i + 1)%Z
                (if startsWith (p :: pat) (x :: s) then i else found))
      as [[E N]|(k & E & L & O & N)].
    + destruct (startsWith (p :: pat) (x :: s)) eqn:S0.
      * right. exists 0%nat. rewrite E.
        repeat split; [lia | simpl; lia | exact S0 |].
        intros [|k'] Hk; [lia | apply N].
      * left. split; [exact E|]. intros [|k]; [exact S0 | apply N].
    + right. exists (S k). rewrite E.
      repeat split; [lia | simpl; lia | exact O |].
      intros [|k'] Hk; [lia|]. apply N. lia.
Qed.

Lemma lastIndexOf_spec p pat s :
  (lastIndexOf (p :: pat) s = (-1)%Z
   /\ forall k, startsWith (p :: pat) (skipn k s) = false)
  \/ (exists k : nat,
        lastIndexOf (p :: pat) s = Z.of_nat k /\ (k < length s)%nat
        /\ startsWith (p :: pat) (skipn k s) = true
        /\ forall k', (k < k')%nat ->
                      startsWith (p :: pat) (skipn k' s) = false).
Proof. apply (lastIndexOf_from_spec p pat s 0 (-1)). Qed.

Lemma substring_from s k :
  (k < length s)%nat -> substring s (Z.of_nat k) None = skipn k s.
Proof.
  intros L. unfold substring, clampIndex.
  replace (Z.to_nat (Z.min (Z.max (Z.of_nat k) 0) (Z.of_nat (length s))))
    with k by lia.
  rewrite Nat.min_l, Nat.max_r by lia.
  apply firstn_all2. rewrite length_skipn. lia.
Qed.

Lemma substring_to s k :
  (k < length s)%nat -> substring s 0 (Some (Z.of_nat k)) = firstn k s.
Proof.
  intros L. unfold substring, clampIndex.
  replace (Z.to_nat (Z.min (Z.max (Z.of_nat k) 0) (Z.of_nat (length s))))
    with k by lia.
  replace (Z.to_nat (Z.min (Z.max 0 0) (Z.of_nat (length s)))) with 0%nat
    by lia.
  rewrite Nat.min_l, Nat.max_r by lia.
  now rewrite Nat.sub_0_r.
Qed.

(** What is held back by a flush without force: from the last opening
    on, when no closing comes after it. *)
Lemma incomplete_from_last_opening text k :
  startsWith (str "<<") (skipn k text) = true ->
  (forall j, (k <= j)%nat -> startsWith (str ">>") (skipn j text) = false) ->
  IncompleteTag (skipn k text).
Proof.
  intros O N. split.
  - now apply startsWith_true.
  - intros a b E.
    pose proof (skipn_occurrence _ _ _ E) as C.
    rewrite skipn_skipn in C.
    rewrite N in C by lia. discriminate.
Qed.

End Search.


Section SoftFlush.

Lemma lastIndexOf_literal (lit : string) s :
  str lit <> [] ->
  (lastIndexOf (str lit) s = (-1)%Z
   /\ forall k, startsWith (str lit) (skipn k s) = false)
  \/ (exists k : nat,
        lastIndexOf (str lit) s = Z.of_nat k /\ (k < length s)%nat
        /\ startsWith (str lit) (skipn k s) = true
        /\ forall k', (k < k')%nat ->
                      startsWith (str lit) (skipn k' s) = false).
Proof.
  destruct (str lit) as [|p pat]; [congruence|]. intros _.
  apply lastIndexOf_spec.
Qed.

(** The three outcomes of a flush without force. *)
Lemma flush_soft_cases now tl text :
  let st := {| timeline := tl; narrativeBuffer := text |} in
  let st' := flushNarrativeBuffer now false st in
  (text = [] /\ st' = st)
  \/ (exists k : nat,
        (k < length text)%nat
        /\ startsWith (str "<<") (skipn k text) = true
        /\ (forall j, (k <= j)%nat ->
                      startsWith (str ">>") (skipn j text) = false)
        /\ narrativeBuffer st' = skipn k text
        /\ timeline st' = match k with
                          | O => tl
                          | S _ => appendToTimeline now (firstn k text) tl
                          end)
  \/ (text <> [] /\ st' = flushedAll now tl text).
Proof.
  intros st st'. destruct text as [|c text]; [left; now split|].
  right. subst st st'. unfold flushNarrativeBuffer.
  cbn [narrativeBuffer timeline isEmpty negb andb].
  assert (Hfull : c :: text <> []) by discriminate.
  remember (c :: text) as full eqn:Ef. clear Ef c text.
  destruct (@lastIndexOf_literal "<<" full ltac:(discriminate))
    as [[Eo _]|(k & Eo & Lk & Ok & _)]; rewrite Eo.
  - right. split; [exact Hfull | reflexivity].
  - assert (Hne : (Z.of_nat k =? -1)%Z = false) by (apply Z.eqb_neq; lia).
    rewrite Hne. cbn [negb andb].
    destruct (@lastIndexOf_literal ">>" full ltac:(discriminate))
      as [[Ec Nc]|(k2 & Ec & Lk2 & _ & Nc)]; rewrite Ec.
    + replace (-1 <? Z.of_nat k)%Z with true by (symmetry; apply Z.ltb_lt; lia).
      left. exists k. repeat split; [exact Lk | exact Ok | intros; apply Nc | |].
      * destruct k as [|k]; [reflexivity|].
        replace (Z.of_nat (S k) >? 0)%Z with true
          by (symmetry; apply Z.gtb_lt; lia).
        cbn [narrativeBuffer]. now apply substring_from.
      * destruct k as [|k]; [reflexivity|].
        replace (Z.of_nat (S k) >? 0)%Z with true
          by (symmetry; apply Z.gtb_lt; lia).
        cbn [timeline]. now rewrite substring_to.
    + destruct (Z.ltb_spec (Z.of_nat k2) (Z.of_nat k)) as [Lt|Ge].
      * left. exists k.
        repeat split; [exact Lk | exact Ok | intros; apply Nc; lia | |].
        -- destruct k as [|k]; [reflexivity|].
           replace (Z.of_nat (S k) >? 0)%Z with true
             by (symmetry; apply Z.gtb_lt; lia).
           cbn [narrativeBuffer]. now apply substring_from.
        -- destruct k as [|k]; [reflexivity|].
           replace (Z.of_nat (S k) >? 0)%Z with true
             by (symmetry; apply Z.gtb_lt; lia).
           cbn [timeline]. now rewrite substring_to.
      * right. split; [exact Hfull|].
        replace (Z.of_nat k2 <? Z.of_nat k)%Z with false
          by (symmetry; apply Z.ltb_ge; lia).
        reflexivity.
Qed.

End SoftFlush.


Section Handler.

Lemma flush_soft_heldBack now st :
  HeldBack (narrativeBuffer (flushNarrativeBuffer now false st)).
Proof.
  destruct st as [tl text].
  destruct (flush_soft_cases now tl text)
    as [[-> ->]|[(k & _ & O & N & -> & _)|[_ ->]]].
  - now left.
  - right. now apply incomplete_from_last_opening.
  - now left.
Qed.

Lemma handleStreamEvent_buffer now data st :
  String.eqb (d_type data) "token" = false ->
  narrativeBuffer (handleStreamEvent now data st) = []
  \/ handleStreamEvent now data st = st.
Proof.
  intros T. unfold handleStreamEvent. rewrite T.
  destruct (mechanicalType (d_type data)).
  - left. apply flush_force_buffer.
  - repeat match goal with
           | |- context [if ?b then _ else _] => destruct b
           end;
      first [left; apply flush_force_buffer | now right].
Qed.

Lemma handleStreamEvent_heldBack now data st :
  HeldBack (narrativeBuffer st) ->
  HeldBack (narrativeBuffer (handleStreamEvent now data st)).
Proof.
  intros H. destruct (String.eqb (d_type data) "token") eqn:T.
  - unfold handleStreamEvent. rewrite T. apply flush_soft_heldBack.
  - destruct (handleStreamEvent_buffer now data st T) as [->| ->];
      [now left | exact H].
Qed.

Lemma tag_opened t : SpeakerTag t -> exists b, t = str "<<" ++ b.
Proof.
  intros [ws1 kw ws2 ws3 name ws4 _ _ _ _ _ _]. eexists. reflexivity.
Qed.

Lemma TagsRemoved_no_opening s :
  includes (str "<<") s = false -> TagsRemoved s s.
Proof.
  induction s as [|x s IH]; intros H; [constructor|].
  change (includes (str "<<") (x :: s))
    with (startsWith (str "<<") (x :: s) || includes (str "<<") s) in H.
  apply orb_false_elim in H. destruct H as [H0 H1].
  apply removed_keep; [|now apply IH].
  intros t rest E T. destruct (tag_opened T) as (b & ->).
  rewrite E, <- app_assoc, startsWith_app in H0. discriminate.
Qed.

(** A text without an opening is left as it is by the replacement. *)
Lemma replaceAll_plain s :
  includes (str "<<") s = false -> replaceAll tagRegex s = s.
Proof.
  intros H.
  exact (TagsRemoved_unique (replaceAll_removed s) (TagsRemoved_no_opening s H)).
Qed.

Lemma flushedAll_text now tl text :
  narrativeText (timeline (flushedAll now tl text))
  = narrativeText tl ++ replaceAll tagRegex text.
Proof.
  unfold flushedAll. cbn [timeline].
  destruct (replaceAll tagRegex text); simpl isEmpty; cbv iota.
  - now rewrite app_nil_r.
  - apply narrativeText_append.
Qed.

Lemma token_plain now st text :
  narrativeBuffer st = [] -> includes (str "<<") text = false ->
  let st' := handleStreamEvent now (tokenFrame text) st in
  narrativeBuffer st' = []
  /\ narrativeText (timeline st') = narrativeText (timeline st) ++ text.
Proof.
  intros B H st'. subst st'. unfold handleStreamEvent.
  cbn [tokenFrame d_type d_content contentToString String.eqb Ascii.eqb
       Bool.eqb].
  rewrite B. cbn [app].
  destruct (flush_soft_cases now (timeline st) text)
    as [[-> ->]|[(k & L & O & _)|[_ ->]]].
  - cbn [narrativeBuffer timeline]. now rewrite app_nil_r.
  - exfalso. apply startsWith_true in O. destruct O as (b & O).
    apply (@includes_false (str "<<") text H (firstn k text) b).
    now rewrite <- O, firstn_skipn.
  - split; [reflexivity|].
    now rewrite flushedAll_text, replaceAll_plain.
Qed.

End Handler.


Section AppendOnly.

Lemma filter_snoc (A : Type) (f : A -> bool) l x :
  filter f (l ++ [x]) = filter f l ++ (if f x then [x] else []).
Proof. rewrite filter_app. reflexivity. Qed.

Lemma notNarrative_append now c tl :
  filter notNarrative (appendToTimeline now c tl) = filter notNarrative tl.
Proof.
  destruct (timeline_cases tl) as [->|(l & e & ->)]; [reflexivity|].
  rewrite appendToTimeline_snoc. unfold notNarrative.
  destruct (isNarrative e) eqn:E.
  - rewrite !filter_snoc.
    change (isNarrative (addContent e c)) with (isNarrative e).
    now rewrite E.
  - change [e; narrativeEvent now c] with ([e] ++ [narrativeEvent now c]).
    rewrite app_assoc, filter_snoc. simpl. now rewrite app_nil_r.
Qed.

Lemma length_append now c tl :
  (length tl <= length (appendToTimeline now c tl))%nat.
Proof.
  destruct (timeline_cases tl) as [->|(l & e & ->)]; [simpl; lia|].
  rewrite appendToTimeline_snoc.
  destruct (isNarrative e); rewrite !length_app; simpl; lia.
Qed.

(** What a flush does to the three views of the timeline. *)
Lemma flush_views now force st :
  let tl' := timeline (flushNarrativeBuffer now force st) in
  filter notNarrative tl' = filter notNarrative (timeline st)
  /\ (exists added, narrativeText tl' = narrativeText (timeline st) ++ added)
  /\ (length (timeline st) <= length tl')%nat.
Proof.
  intros tl'. subst tl'.
  destruct (flush_timeline_cases now force st) as [->|(c & ->)].
  - repeat split; [|lia]. exists []. now rewrite app_nil_r.
  - repeat split.
    + apply notNarrative_append.
    + exists c. apply narrativeText_append.
    + apply length_append.
Qed.

Lemma push_views e st :
  isNarrative e = false ->
  let tl' := timeline (push e st) in
  filter notNarrative tl' = filter notNarrative (timeline st) ++ [e]
  /\ narrativeText tl' = narrativeText (timeline st)
  /\ (length (timeline st) <= length tl')%nat.
Proof.
  intros E tl'. subst tl'. cbn [push timeline]. repeat split.
  - rewrite filter_snoc. unfold notNarrative. now rewrite E.
  - rewrite narrativeText_app. simpl. rewrite E. now rewrite app_nil_r.
  - rewrite length_app. lia.
Qed.

Lemma handleStreamEvent_views now data st :
  let tl' := timeline (handleStreamEvent now data st) in
  filter notNarrative tl'
  = filter notNarrative (timeline st) ++ pushedEvent now data
  /\ (exists added, narrativeText tl' = narrativeText (timeline st) ++ added)
  /\ (length (timeline st) <= length tl')%nat.
Proof.
  intros tl'. subst tl'. unfold handleStreamEvent, pushedEvent.
  destruct (String.eqb (d_type data) "token").
  - rewrite app_nil_r.
    apply (flush_views now false
             {| timeline := timeline st;
                narrativeBuffer :=
                  narrativeBuffer st ++ contentToString (d_content data) |}).
  - destruct (flush_views now true st) as (F & (added & T) & L).
    assert (P : forall e, isNarrative e = false ->
              filter notNarrative
                (timeline (push e (flushNarrativeBuffer now true st)))
              = filter notNarrative (timeline st) ++ [e]
              /\ (exists added,
                    narrativeText
                      (timeline (push e (flushNarrativeBuffer now true st)))
                    = narrativeText (timeline st) ++ added)
              /\ (length (timeline st)
                  <= length (timeline
                               (push e (flushNarrativeBuffer now true st))))%nat).
    { intros e E.
      destruct (push_views e (flushNarrativeBuffer now true st) E)
        as (F' & T' & L').
      rewrite F', T', F. repeat split; [eauto | lia]. }
    destruct (mechanicalType (d_type data)) as [t|] eqn:M.
    + apply P. apply (mechanicalType_not_narrative _ M).
    + repeat match goal with
             | |- context [if ?b then _ else _] => destruct b
             end; try (apply P; reflexivity).
      rewrite app_nil_r. repeat split; [|lia].
      exists []. now rewrite app_nil_r.
Qed.

Lemma handleFrames_views frames :
  forall st,
    let tl' := timeline (handleFrames frames st) in
    filter notNarrative tl'
    = filter notNarrative (timeline st) ++ pushedEvents frames
    /\ (exists added,
          narrativeText tl' = narrativeText (timeline st) ++ added)
    /\ (length (timeline st) <= length tl')%nat.
Proof.
  induction frames as [|[now data] frames IH]; intros st tl'; subst tl'.
  - simpl. rewrite app_nil_r. repeat split; [|lia].
    exists []. now rewrite app_nil_r.
  - cbn [handleFrames]. unfold pushedEvents. cbn [flat_map fst snd].
    fold (pushedEvents frames).
    destruct (IH (handleStreamEvent now data st)) as (F & (a2 & T) & L).
    destruct (handleStreamEvent_views now data st) as (F' & (a1 & T') & L').
    rewrite F, F', T, T', <- !app_assoc.
    repeat split; [eauto | lia].
Qed.

End AppendOnly.


Section WholeTag.

Lemma noChar_skipn c k s : noChar c s -> noChar c (skipn k s).
Proof.
  intros H. revert k. induction H as [|x s Hx Hs IH]; intros [|k]; simpl.
  - constructor.
  - constructor.
  - now constructor.
  - apply IH.
Qed.

Lemma noChar_startsWith c pat s :
  noChar c s -> startsWith (c :: pat) s = false.
Proof.
  intros [|x s' Hx _]; [reflexivity|]. simpl.
  destruct (N.eqb_spec c x); [congruence | reflexivity].
Qed.

Lemma noChar_includes c pat s :
  noChar c s -> includes (c :: pat) s = false.
Proof.
  intros H. induction H as [|x s Hx Hs IH]; [reflexivity|].
  change (includes (c :: pat) (x :: s))
    with (startsWith (c :: pat) (x :: s) || includes (c :: pat) s).
  rewrite IH, orb_false_r. apply noChar_startsWith. now constructor.
Qed.

(** A tag that holds no [>] before its closing is the first tag of any
    text that it starts. *)
Lemma first_tag_closed_once h b :
  SpeakerTag (h ++ str ">>") -> noChar 62%N h ->
  FirstTag ((h ++ str ">>") ++ b) (h ++ str ">>") b.
Proof.
  intros T H. split; [reflexivity|]. split; [exact T|].
  intros t' rest' E T'. destruct (tag_closed T') as (a' & ->).
  rewrite !length_app. simpl.
  destruct (Nat.le_gt_cases (length h) (length a')) as [L|L]; [lia|].
  exfalso.
  apply (f_equal (fun l => nth (length a') l 0%N)) in E.
  rewrite <- !app_assoc in E. cbn [str app] in E.
  rewrite nth_middle, app_nth1 in E by exact L.
  unfold noChar in H. rewrite Forall_forall in H.
  apply (H (nth (length a') h 0%N)); [now apply nth_In | exact E].
Qed.

Lemma TagsRemoved_whole_tag a h b :
  noChar 60%N a -> SpeakerTag (h ++ str ">>") -> noChar 62%N h ->
  includes (str "<<") b = false ->
  TagsRemoved (a ++ (h ++ str ">>") ++ b) (a ++ b).
Proof.
  intros Ha T H Hb. induction Ha as [|x a Hx _ IH].
  - apply removed_tag with (t := h ++ str ">>") (rest := b).
    + now apply first_tag_closed_once.
    + now apply TagsRemoved_no_opening.
  - simpl app. apply removed_keep; [|exact IH].
    intros t rest E T'. destruct (tag_opened T') as (t0 & ->).
    injection E as E _. congruence.
Qed.

Lemma replaceAll_whole_tag a h b :
  noChar 60%N a -> SpeakerTag (h ++ str ">>") -> noChar 62%N h ->
  includes (str "<<") b = false ->
  replaceAll tagRegex (a ++ (h ++ str ">>") ++ b) = a ++ b.
Proof.
  intros Ha T H Hb.
  apply (TagsRemoved_unique (replaceAll_removed _)).
  now apply TagsRemoved_whole_tag.
Qed.

(** With a closing at [n] and nothing but [>>] and text without [<] from
    there on, no opening is left unclosed. *)
Lemma no_opening_after_closing (p b : jsstring) k :
  noChar 60%N b -> (length p < k)%nat ->
  startsWith (str "<<") (skipn k (p ++ str ">>" ++ b)) = false.
Proof.
  intros Hb L.
  rewrite skipn_app, skipn_all2 by lia. cbn [app].
  remember (k - length p)%nat as m eqn:Em.
  destruct m as [|[|m]]; [lia | |].
  - reflexivity.
  - cbn [str skipn]. apply noChar_startsWith. now apply noChar_skipn.
Qed.

End WholeTag.


Section Sending.

Variable parse : jsstring -> option StreamData.

Lemma dropWhile_all cls s :
  Forall (fun c => cls c = true) s -> dropWhile cls s = [].
Proof.
  intros H. induction H as [|x s Hx _ IH]; [reflexivity|].
  simpl. now rewrite Hx.
Qed.

Lemma trim_blank s : blank s -> trim s = [].
Proof.
  intros H. unfold trim. now rewrite (dropWhile_all _ H).
Qed.

Lemma handleLines_prefix now lines :
  forall st p ev l,
    isNarrative ev = false -> timeline st = p ++ ev :: l ->
    exists l', timeline (handleLines parse now lines st) = p ++ ev :: l'.
Proof.
  intros st p ev l Hev E. rewrite handleLines_frames.
  now apply handleFrames_prefix with (l := l).
Qed.

Lemma readLoop_prefix chunks :
  forall buffer st p ev l,
    isNarrative ev = false -> timeline st = p ++ ev :: l ->
    exists l', timeline (snd (readLoop parse chunks buffer st))
               = p ++ ev :: l'.
Proof.
  induction chunks as [|[now v] chunks IH]; intros buffer st p ev l Hev E.
  - eauto.
  - cbn [readLoop]. destruct (feed buffer v) as [lines buffer'].
    destruct (@handleLines_prefix now lines st p ev l Hev E) as (l1 & E1).
    exact (IH _ _ _ _ _ Hev E1).
Qed.

Lemma executeTurnStream_prefix chunks fin st p ev l :
  isNarrative ev = false -> timeline st = p ++ ev :: l ->
  exists l', timeline (executeTurnStream parse chunks fin st)
             = p ++ ev :: l'.
Proof.
  intros Hev E. unfold executeTurnStream.
  destruct (@readLoop_prefix chunks [] st p ev l Hev E) as (l1 & E1).
  destruct fin as [endTime|errorTime].
  - unfold endOfStream.
    destruct (negb (isEmpty (narrativeBuffer (snd (readLoop parse chunks [] st))))).
    + now apply flush_prefix with (l := l1).
    + eauto.
  - now apply push_prefix with (l := l1).
Qed.

End Sending.

Section Tools.

Import Js.

Variable parse : jsstring -> option jsval.

Lemma getParsedArgs_truthy v :
  typeof v <> TString -> truthy (ToolArgs.getParsedArgs parse v) = true.
Proof.
  intros H. destruct v as [| |b|x|s|items|props]; try reflexivity.
  - destruct b; reflexivity.
  - destruct x; reflexivity.
  - now destruct H.
Qed.

End Tools.

Section Keys.

Import Degree.

Lemma replaceEvery_id from to s :
  from <> to -> (replaceEvery from to s = s <-> countChar from s = 0%nat).
Proof.
  intros D. unfold countChar. induction s as [|x s IH]; [now split|].
  simpl. destruct (N.eqb_spec x from) as [->|Nx].
  - split; [intros E; injection E as E _; congruence | discriminate].
  - rewrite <- IH. split; [intros E; injection E as E; exact E|].
    intros ->. reflexivity.
Qed.

Lemma replaceFirst_replaceEvery from to s :
  from <> to ->
  (replaceFirst from to s = replaceEvery from to s
   <-> (countChar from s <= 1)%nat).
Proof.
  intros D. induction s as [|x s IH];
    [split; [intros _; unfold countChar; simpl; lia | reflexivity]|].
  unfold countChar in *. cbn [replaceFirst replaceEvery map filter].
  destruct (N.eqb_spec x from) as [->|Nx]; cbv iota.
  - pose proof (replaceEvery_id s D) as R. unfold countChar in R.
    cbn [length]. split.
    + intros E. injection E as E. symmetry in E. apply R in E. lia.
    + intros L. f_equal. symmetry. apply R. lia.
  - fold (replaceEvery from to s). rewrite <- IH. split; [intros E; injection E as E; exact E|].
    intros ->. reflexivity.
Qed.

End Keys.

(** * What the rest of the view guarantees *)

Section Chunks.

Variable parse : jsstring -> option StreamData.

(** X1.  How the response is cut into chunks does not matter: chunks read
    at the same reading of the clock leave the state that their
    concatenation, read as one chunk, leaves, which is the state after the
    frames of the complete lines of the whole text. *)
Theorem chunking_is_irrelevant :
  forall (now : jsstring) (chunks : list jsstring) (fin : StreamEnd)
         (st : State),
    executeTurnStream parse (map (fun v => (now, v)) chunks) fin st
    = executeTurnStream parse [(now, concat chunks)] fin st
    /\ snd (readLoop parse (map (fun v => (now, v)) chunks) [] st)
       = handleFrames
           (framesOf parse now (fst (feed [] (concat chunks)))) st.
Proof.
  intros now chunks fin st.
  assert (E : snd (readLoop parse (map (fun v => (now, v)) chunks) [] st)
              = handleLines parse now (fst (feed [] (concat chunks))) st).
  { rewrite readLoop_same_clock, feedAll_concat; reflexivity. }
  split.
  - unfold executeTurnStream. rewrite E.
    cbn [readLoop]. destruct (feed [] (concat chunks)) as [lines rest].
    reflexivity.
  - rewrite E. apply handleLines_frames.
Qed.

Lemma feedAll_carries chunks :
  forall buffer, splitBlank buffer = [buffer] ->
    splitBlank (snd (feedAll chunks buffer)) = [snd (feedAll chunks buffer)].
Proof.
  induction chunks as [|v chunks IH]; intros buffer H; [exact H|].
  cbn [feedAll]. pose proof (feed_carries buffer v) as C.
  destruct (feed buffer v) as [lines buffer']. cbn [snd] in C.
  specialize (IH buffer' C).
  now destruct (feedAll chunks buffer').
Qed.

(** X2.  What the loop carries over from one chunk to the next never holds
    a complete separator: every complete line has been taken out. *)
Theorem carried_buffer_has_no_separator :
  forall (chunks : list (jsstring * jsstring)) (st : State),
    includes blankLine (fst (readLoop parse chunks [] st)) = false.
Proof.
  intros chunks st. rewrite readLoop_buffer.
  apply splitBlank_whole. now apply feedAll_carries.
Qed.

(** X3.  Nothing of the response is lost or invented by the loop: the
    lines it takes out, joined by the separator and followed by what it
    carries over, are the text that was received. *)
Theorem no_text_is_lost :
  forall (chunks : list (jsstring * jsstring)) (st : State),
    let lines := fst (feedAll (map snd chunks) []) in
    let carried := fst (readLoop parse chunks [] st) in
    carried = snd (feedAll (map snd chunks) [])
    /\ joinBlank (lines ++ [carried]) = concat (map snd chunks).
Proof.
  intros chunks st lines carried. subst lines carried.
  rewrite readLoop_buffer. split; [reflexivity|].
  apply (feedAll_joins (map snd chunks) []).
Qed.

End Chunks.

Section Held.

(** X4.  After a narration token the buffer holds nothing or a tag that is
    opened and not closed, and this stays so whatever frames follow; once
    a turn has ended with the end of its stream the buffer is empty. *)
Theorem held_back_is_incomplete_tag :
  (forall now data st,
     d_type data = "token"%string ->
     HeldBack (narrativeBuffer (handleStreamEvent now data st)))
  /\ (forall frames st,
        HeldBack (narrativeBuffer st) ->
        HeldBack (narrativeBuffer (handleFrames frames st)))
  /\ (forall frames endTime st,
        narrativeBuffer (executeTurn frames endTime st) = []).
Proof.
  split; [|split].
  - intros now data st T. unfold handleStreamEvent. rewrite T.
    apply flush_soft_heldBack.
  - induction frames as [|[now data] frames IH]; intros st H; [exact H|].
    cbn [handleFrames]. apply IH. now apply handleStreamEvent_heldBack.
  - intros frames endTime st. unfold executeTurn, endOfStream.
    destruct (narrativeBuffer (handleFrames frames st)) eqn:E;
      [exact E | apply flush_force_buffer].
Qed.

Lemma held_back_witness :
  HeldBack (narrativeBuffer emptyState)
  /\ HeldBack (narrativeBuffer
                 (handleFrames [(noon, token "The lock <<SPEAK")] emptyState)).
Proof.
  assert (H : HeldBack (narrativeBuffer emptyState)) by (now left).
  split; [exact H|].
  exact (proj1 (proj2 held_back_is_incomplete_tag)
           [(noon, token "The lock <<SPEAK")] emptyState H).
Defined.

(** X5.  Tokens without an opening pass through as they are: the
    narration gains their concatenation and the buffer ends empty. *)
Theorem plain_tokens_pass_through :
  forall (toks : list (jsstring * jsstring)) (endTime : jsstring)
         (st : State),
    narrativeBuffer st = [] ->
    Forall (fun tok => includes (str "<<") (snd tok) = false) toks ->
    let frames := map (fun tok => (fst tok, tokenFrame (snd tok))) toks in
    let st' := executeTurn frames endTime st in
    narrativeBuffer st' = []
    /\ narrativeText (timeline st')
       = narrativeText (timeline st) ++ concat (map snd toks).
Proof.
  intros toks endTime st B H frames st'. subst frames st'.
  assert (G : narrativeBuffer
                (handleFrames
                   (map (fun tok => (fst tok, tokenFrame (snd tok))) toks) st)
              = []
              /\ narrativeText
                   (timeline
                      (handleFrames
                         (map (fun tok => (fst tok, tokenFrame (snd tok)))
                              toks) st))
                 = narrativeText (timeline st) ++ concat (map snd toks)).
  { revert st B. induction H as [|[now text] toks Hx _ IH]; intros st B.
    - simpl. now rewrite app_nil_r.
    - cbn [map handleFrames fst snd concat].
      destruct (token_plain now st text B Hx) as (B1 & T1).
      destruct (IH _ B1) as (B2 & T2).
      split; [exact B2|]. now rewrite T2, T1, app_assoc. }
  destruct G as (B' & T'). unfold executeTurn, endOfStream.
  rewrite B'. cbn [isEmpty negb]. now split.
Qed.

Lemma plain_tokens_witness :
  narrativeText
    (timeline (executeTurn [(noon, tokenFrame (str "Hello <"));
                            (noon, tokenFrame (str "<world"))] noon
                 emptyState))
  = str "Hello <<world".
Proof.
  assert (H : Forall (fun tok => includes (str "<<") (snd tok) = false)
                [(noon, str "Hello <"); (noon, str "<world")])
    by (repeat constructor).
  exact (proj2 (@plain_tokens_pass_through
                  [(noon, str "Hello <"); (noon, str "<world")] noon
                  emptyState eq_refl H)).
Defined.

(** X6.  A token that holds one complete tag, with no [>] before its
    closing, between texts without [<], is stripped of the tag at once,
    whatever the case of the keyword and the blanks: the narration gains
    the two texts and nothing is held back. *)
Theorem whole_tag_in_one_token_is_removed :
  forall (now : jsstring) (st : State) (a h b : jsstring),
    narrativeBuffer st = [] ->
    noChar 60%N a -> SpeakerTag (h ++ str ">>") -> noChar 62%N h ->
    noChar 60%N b ->
    let st' := handleStreamEvent now
                 (tokenFrame (a ++ (h ++ str ">>") ++ b)) st in
    narrativeBuffer st' = []
    /\ narrativeText (timeline st') = narrativeText (timeline st) ++ a ++ b.
Proof.
  intros now st a h b B Ha T Hh Hb st'. subst st'.
  unfold handleStreamEvent.
  cbn [tokenFrame d_type d_content contentToString String.eqb Ascii.eqb
       Bool.eqb].
  rewrite B. cbn [app].
  set (text := a ++ (h ++ str ">>") ++ b).
  assert (Et : text = (a ++ h) ++ str ">>" ++ b)
    by (unfold text; now rewrite <- !app_assoc).
  destruct (flush_soft_cases now (timeline st) text)
    as [[E _]|[(k & L & O & N & _)|[_ ->]]].
  - exfalso. rewrite Et in E. destruct (a ++ h); discriminate.
  - exfalso.
    destruct (Nat.le_gt_cases k (length (a ++ h))) as [Le|Gt].
    + pose proof (skipn_occurrence _ _ _ Et) as C.
      rewrite (N _ Le) in C. discriminate.
    + rewrite Et, no_opening_after_closing in O by assumption.
      discriminate.
  - split; [reflexivity|].
    rewrite flushedAll_text. unfold text.
    rewrite replaceAll_whole_tag; try assumption; [reflexivity|].
    now apply noChar_includes.
Qed.

Lemma spaced_tag_sample : SpeakerTag (spacedTagOpen ++ str ">>").
Proof.
  apply (@speaker_tag [32%N] (str "speaker") [32%N] [32%N] (str "Mara")
                      [32%N]);
    repeat constructor.
Defined.

Lemma whole_tag_witness :
  narrativeText
    (timeline (handleStreamEvent noon
                 (tokenFrame (str "Hi " ++ (spacedTagOpen ++ str ">>")
                              ++ str " there"))
                 emptyState))
  = str "Hi " ++ str " there".
Proof.
  assert (Ha : noChar 60%N (str "Hi ")) by (repeat constructor; discriminate).
  assert (Hh : noChar 62%N spacedTagOpen)
    by (repeat constructor; discriminate).
  assert (Hb : noChar 60%N (str " there"))
    by (repeat constructor; discriminate).
  exact (proj2 (@whole_tag_in_one_token_is_removed noon emptyState
                  (str "Hi ") spacedTagOpen (str " there")
                  eq_refl Ha spaced_tag_sample Hh Hb)).
Defined.

(** X7.  The stream handler only appends.  The events that are not
    narration are, after any frames, the ones that were there followed by
    the events of the frames in the order of their arrival; the narration
    is only extended; the timeline never gets shorter. *)
Theorem timeline_is_append_only :
  forall (frames : list (jsstring * StreamData)) (st : State),
    let tl' := timeline (handleFrames frames st) in
    filter notNarrative tl'
    = filter notNarrative (timeline st) ++ pushedEvents frames
    /\ (exists added,
          narrativeText tl' = narrativeText (timeline st) ++ added)
    /\ (length (timeline st) <= length tl')%nat.
Proof. intros frames st. apply handleFrames_views. Qed.

End Held.

Section Submit.

Variable parse : jsstring -> option StreamData.

(** X8.  An input that is sent while no turn is running is shown before
    everything that its turn brings: the request carries the text as it
    was typed, a second send before the end of the turn does nothing, and
    at the end of the turn, however the stream ends, the timeline is the
    former one, the input of the player, then the rest. *)
Theorem user_input_precedes_turn :
  forall (now now' : jsstring) (choice : ChoiceData)
         (chunks : list (jsstring * jsstring)) (fin : StreamEnd)
         (s : Session),
    isEmpty (trim (userInput s)) = false -> loading s = false ->
    let s1 := fst (sendText now s) in
    let s2 := finishTurn parse chunks fin s1 in
    snd (sendText now s)
    = Some {| input_mode := text_mode; text_content := userInput s;
              choice_data := None; hidden := false |}
    /\ sendText now' s1 = (s1, None)
    /\ sendChoice now' choice s1 = (s1, None)
    /\ loading s2 = false
    /\ userInput s2 = []
    /\ exists later,
         timeline (state s2)
         = timeline (state s) ++ userInputEvent now (userInput s) :: later.
Proof.
  intros now now' choice chunks fin s T L s1 s2. subst s2 s1.
  assert (E : sendText now s
              = ({| state := push (userInputEvent now (userInput s)) (state s);
                    userInput := [];
                    loading := true |},
                 Some {| input_mode := text_mode;
                         text_content := userInput s;
                         choice_data := None; hidden := false |}))
    by (unfold sendText; now rewrite T, L).
  rewrite E. cbn [fst snd].
  split; [reflexivity|]. split.
  { unfold sendText. cbn [loading]. now rewrite orb_true_r. }
  split; [reflexivity|]. split; [reflexivity|]. split; [reflexivity|].
  cbn [finishTurn state].
  apply executeTurnStream_prefix with (l := []); reflexivity.
Qed.

(** X12.  An input made of white space only is not sent. *)
Theorem blank_input_is_not_sent :
  forall (now : jsstring) (s : Session),
    blank (userInput s) -> sendText now s = (s, None).
Proof.
  intros now s B. unfold sendText. now rewrite (trim_blank B).
Qed.

Lemma blank_input_witness : sendText noon blankTyping = (blankTyping, None).
Proof.
  apply blank_input_is_not_sent. repeat constructor.
Defined.

End Submit.

Lemma user_input_witness :
  exists later,
    timeline (state (finishTurn parseNothing [] (Done noon)
                       (fst (sendText noon typing))))
    = userInputEvent noon (str "look around") :: later.
Proof.
  destruct (@user_input_precedes_turn parseNothing noon noon
              {| id := []; label := []; skill_check := None;
                 difficulty := None |}
              [] (Done noon) typing eq_refl eq_refl)
    as (_ & _ & _ & _ & _ & later & E).
  exists later. exact E.
Defined.

Section Results.

Import Js.

(** X9.  A result that cannot be parsed counts as a success: a string
    that is not JSON becomes the empty object through [getParsedArgs], on
    which [isSuccess] is true, so the card of an inventory tool shows a
    success for any such message that is not empty; with no content or a
    falsy one it shows a failure.  Outside the card, [getParsedArgs] also
    turns every falsy value that is not a string into the empty object. *)
Theorem unparsable_result_counts_as_success :
  forall (parse : jsstring -> option jsval),
    (forall s, parse s = None ->
               ToolUtils.isSuccess (ToolArgs.getParsedArgs parse (JStr s))
               = JBool true)
    /\ (forall s, s <> [] -> parse s = None ->
                  ToolUtils.isSuccess
                    (ToolArgs.resultContent parse (Some (JStr s)))
                  = JBool true)
    /\ (forall v, truthy v = false ->
                  ToolUtils.isSuccess (ToolArgs.resultContent parse (Some v))
                  = JBool false)
    /\ ToolUtils.isSuccess (ToolArgs.resultContent parse None) = JBool false
    /\ (forall v, typeof v <> TString -> truthy v = false ->
                  ToolUtils.isSuccess (ToolArgs.getParsedArgs parse v)
                  = JBool true).
Proof.
  intros parse. split; [|split; [|split; [|split]]].
  - intros s H. unfold ToolArgs.getParsedArgs. now rewrite H.
  - intros s Hs H. destruct s as [|c s]; [contradiction|].
    unfold ToolArgs.resultContent, ToolArgs.getParsedArgs.
    cbn [truthy isEmpty negb]. now rewrite H.
  - intros v Hf. unfold ToolArgs.resultContent. now rewrite Hf.
  - reflexivity.
  - intros v Hs Hf.
    destruct v as [| |b|x|s|items|props]; simpl in Hf;
      try discriminate; try reflexivity.
    + now rewrite Hf.
    + unfold ToolArgs.getParsedArgs. cbn [truthy]. now rewrite Hf.
    + now destruct Hs.
Qed.

Lemma unparsable_result_witness :
  ToolUtils.isSuccess
    (ToolArgs.resultContent parseNoValue
       (Some (JStr (str "Error: no such item"))))
  = JBool true
  /\ ToolUtils.isSuccess (ToolArgs.getParsedArgs parseNoValue JNull)
     = JBool true.
Proof.
  destruct (unparsable_result_counts_as_success parseNoValue)
    as (_ & S & _ & _ & F).
  split; [apply S; [discriminate | reflexivity]|].
  apply F; [discriminate | reflexivity].
Defined.

(** X10.  The key of a degree is made in two ways: the event replaces
    every space by an underscore, the tool result only the first.  The two
    keys are the same exactly when the degree in lower case has at most
    one space; the key of the event never holds a space. *)
Theorem degree_keys_agree :
  forall (toLowerCase : jsstring -> jsstring) (t : jsstring -> jsstring)
         (tDefault : jsstring -> jsstring -> jsstring) (degree : jsstring),
    ((Degree.countChar Degree.space (toLowerCase degree) <= 1)%nat
     <-> Degree.degreeKeyTool toLowerCase degree
         = Degree.degreeKeyEvent toLowerCase degree)
    /\ Degree.countChar Degree.space
         (Degree.degreeKeyEvent toLowerCase degree) = 0%nat
    /\ (forall props,
          lookup "degree" props = Some (JStr degree) ->
          Degree.getResultTitle toLowerCase t tDefault (JObj props)
          = Some (tDefault
                    (str "results."
                     ++ Degree.degreeKeyTool toLowerCase degree)
                    degree))
    /\ (degree <> [] ->
        Degree.getDegreeTranslation toLowerCase t degree
        = t (str "results." ++ Degree.degreeKeyEvent toLowerCase degree)).
Proof.
  intros toLowerCase t tDefault degree.
  split; [|split; [|split]].
  - unfold Degree.degreeKeyTool, Degree.degreeKeyEvent.
    symmetry. apply replaceFirst_replaceEvery. discriminate.
  - unfold Degree.degreeKeyEvent, Degree.countChar, Degree.replaceEvery.
    induction (toLowerCase degree) as [|x l IH]; [reflexivity|].
    cbn [map filter].
    destruct (N.eqb_spec x Degree.space) as [->|Nx].
    + exact IH.
    + destruct (N.eqb_spec x Degree.space); [contradiction | exact IH].
  - intros props H. unfold Degree.getResultTitle.
    cbn [truthy negb typeof has_key get]. now rewrite H.
  - intros H. unfold Degree.getDegreeTranslation.
    destruct degree; [contradiction | reflexivity].
Qed.

Lemma degree_keys_witness :
  str "critical success" <> []
  /\ Degree.getDegreeTranslation (fun s => s) (fun key => key)
       (str "critical success")
     = str "results.critical_success".
Proof.
  assert (H : str "critical success" <> []) by discriminate.
  split; [exact H|].
  exact (proj2 (proj2 (proj2
           (degree_keys_agree (fun s => s) (fun key => key)
              (fun key _ => key) (str "critical success")))) H).
Defined.

(** X11.  The request of a restore tells the session and the target
    apart: two calls that post the same request were made for the same
    session and the same timestamp. *)
Theorem restore_request_identifies_target :
  forall (sessionId ts sessionId' ts' : jsstring),
    fst (Api.restoreHistory sessionId ts)
    = fst (Api.restoreHistory sessionId' ts') ->
    sessionId = sessionId' /\ ts = ts'.
Proof.
  intros sessionId ts sessionId' ts' H. unfold Api.restoreHistory in H.
  cbn [fst] in H. injection H as Hu Hb. split; [|exact Hb].
  now apply app_inv_tail in Hu.
Qed.

Lemma restore_request_witness : str "s1" = str "s1" /\ noon = noon.
Proof.
  exact (@restore_request_identifies_target (str "s1") noon (str "s1") noon
           eq_refl).
Defined.

End Results.

Section Pattern.

(** X13.  The pattern of the tags finds a tag exactly when the text starts
    with a complete one, and then takes the shortest: the name stops at
    the first closing. *)
Theorem tag_pattern_takes_first_tag :
  forall s : jsstring,
    (forall rest, exec tagRegex s = Some rest -> exists t, FirstTag s t rest)
    /\ (exec tagRegex s = None <-> NoTagAt s).
Proof.
  intros s. split; [|split].
  - intros rest H. now apply exec_first_tag.
  - apply exec_no_tag.
  - intros N. destruct (exec tagRegex s) as [rest|] eqn:E; [|reflexivity].
    exfalso. apply exec_sound in E. destruct E as (t & E & M).
    exact (N t rest E (matches_tag M)).
Qed.

Lemma tag_pattern_witness :
  exists t, FirstTag (str "<<SPEAKER:a>>b>>") t (str "b>>").
Proof.
  exact (proj1 (tag_pattern_takes_first_tag (str "<<SPEAKER:a>>b>>"))
           (str "b>>") eq_refl).
Defined.

End Pattern.

(** * The order of a turn in the timeline *)

Section Order.

Lemma heldBack_removed b : HeldBack b -> TagsRemoved b b.
Proof.
  intros [->|I]; [constructor | apply TagsRemoved_no_closing; apply I].
Qed.

Lemma handleFrames_heldBack frames :
  forall st, HeldBack (narrativeBuffer st) ->
             HeldBack (narrativeBuffer (handleFrames frames st)).
Proof.
  induction frames as [|[now data] frames IH]; intros st H; [exact H|].
  cbn [handleFrames]. apply IH. now apply handleStreamEvent_heldBack.
Qed.

Lemma flush_force_text now st :
  narrativeText (timeline (flushNarrativeBuffer now true st))
  = narrativeText (timeline st) ++ replaceAll tagRegex (narrativeBuffer st).
Proof.
  rewrite flush_force_timeline. cbv zeta.
  destruct (replaceAll tagRegex (narrativeBuffer st)); simpl isEmpty;
    cbv iota.
  - now rewrite app_nil_r.
  - apply narrativeText_append.
Qed.

(** A token is taken whenever it comes: its text goes to the narration
    or waits in the buffer. *)
Lemma token_is_taken now text st :
  let st' := handleStreamEvent now (tokenFrame text) st in
  exists chunk,
    narrativeText (timeline st') = narrativeText (timeline st) ++ chunk
    /\ (chunk ++ narrativeBuffer st' = narrativeBuffer st ++ text
        \/ (narrativeBuffer st' = []
            /\ TagsRemoved (narrativeBuffer st ++ text) chunk)).
Proof.
  intros st'. subst st'. unfold handleStreamEvent.
  cbn [tokenFrame d_type d_content contentToString String.eqb Ascii.eqb
       Bool.eqb].
  destruct (flush_soft_cases now (timeline st) (narrativeBuffer st ++ text))
    as [[E ->]|[(k & L & _ & _ & B & T)|[_ ->]]].
  - exists []. cbn [timeline narrativeBuffer].
    split; [now rewrite app_nil_r | now left].
  - rewrite B, T. destruct k as [|k].
    + exists []. split; [now rewrite app_nil_r | now left].
    + exists (firstn (S k) (narrativeBuffer st ++ text)).
      split; [apply narrativeText_append|].
      left. apply firstn_skipn.
  - exists (replaceAll tagRegex (narrativeBuffer st ++ text)).
    split; [apply flushedAll_text|].
    right. split; [reflexivity | apply replaceAll_removed].
Qed.




End Order.
